(** * An in-process publish/subscribe dispatcher (package [pubsub])

    Shallow embedding of [pubsub.go].

    - The registry [pubsub.topics : map[string]*topic] is a [gmap string topic].
      Every [*topic] is created by [newTopic] inside [pubsub.subscribe], is
      stored under its own name at once and is never handed out, so the map
      key stands for the pointer: a method with receiver [t *topic] reads the
      struct found under the key and writes the updated struct back there.
    - A handler is a Go function value [func(...any)].  It is opaque to the
      dispatcher, so the type [handler] is abstract and the meaning of a call
      [handler(args...)] is the section variable [run]: the call starts in a
      program state, may change any of it (the registry included: a closure
      may call back into the dispatcher) and either returns or panics.
    - A nil slice and an empty slice behave alike under [len], [range] and
      [append]; both are the empty list.
    - Every method returns the Go [error] it returns; a panic that escapes a
      method is a different way of finishing, recorded in [completion].  The
      dispatcher has no [recover]: the panic of a handler (a nil handler
      included) leaves [topic.publish] at the call.  A call of a handler is
      taken to end, by returning or by panicking. *)

From stdpp Require Import base option list strings gmap.

Section Dispatcher.

(** [handler]: function values of type [func(...any)].
    [slice]: values of type [[]any], the argument lists.  A publish call
    hands the slice it was given to each handler ([handler(args...)] passes
    a slice as it is, without copying), so the type is abstract here: a
    slice whose elements can be written refers to elements kept in [W].
    [any]: the values carried by a panic.
    [W]: the memory of the program outside the dispatcher, which closures
    may read and write. *)
Context {handler slice any W : Type}.

(** ** Data *)

(** [type topic struct] *)
Record topic := Topic {
  name : string;
  handlers : list handler;
  once : bool;
  onceEach : bool;
  closed : bool
}.

(** The value of Go's [error] interface: [None] is [nil]. *)
Definition error := option string.

(** [type pubsub struct { topics map[string]*topic }], together with the
    rest of the program's memory. *)
Record world := World {
  topics : gmap string topic;
  mem : W
}.

(** How a call into the dispatcher finishes. *)
Inductive completion :=
| Return (err : error)
| Panic (v : any).

(** What a call did: the state it left, the handler calls it made itself
    (in the order made, each with its arguments), and how it finished. *)
Record result := Result {
  after : world;
  invoked : list (handler * slice);
  outcome : completion
}.

(** [handler(args...)]: the state after the call, and [Some v] when the
    call panicked with value [v]. *)
Variable run : handler → slice → world → world * option any.

(** ** The topic *)

(** [func newTopic(name string) *topic] *)
Definition newTopic (name : string) : topic :=
  {| name := name; handlers := []; once := false; onceEach := false;
     closed := false |}.

(** [func (t *topic) subscribe(handler func(...any), once, onceEach bool) error] *)
Definition topic_subscribe (h : handler) (once' onceEach' : bool) (t : topic)
  : topic * error :=
  if closed t then (t, None)
  else ({| name := name t;
           handlers := handlers t ++ [h];
           once := once';
           onceEach := onceEach';
           closed := closed t |}, None).

(** [func (t *topic) unsubscribe() error] *)
Definition topic_unsubscribe (t : topic) : topic * error :=
  if closed t then (t, None)
  else ({| name := name t; handlers := []; once := once t;
           onceEach := onceEach t; closed := true |}, None).

(** [func (t *topic) close() error] *)
Definition topic_close (t : topic) : topic * error :=
  if closed t then (t, None)
  else ({| name := name t; handlers := []; once := once t;
           onceEach := onceEach t; closed := true |}, None).

(** [t.handlers = nil] *)
Definition clear_handlers (t : topic) : topic :=
  {| name := name t; handlers := []; once := once t;
     onceEach := onceEach t; closed := closed t |}.

(** Writing the struct [t] back through the pointer kept under [k]. *)
Definition store (k : string) (t : topic) (w : world) : world :=
  {| topics := <[k := t]> (topics w); mem := mem w |}.

(** One iteration of the loop of [topic.publish], for the topic kept
    under [k] and the loop variable [handler] bound to [h]:
<<
    handler(args...)
    if t.once     { t.handlers = nil }
    if t.onceEach { handler = nil }
>>
    The flags are read after the call, from the topic as the call left it.
    The second component is the loop variable at the end of the iteration
    ([None] is [nil]); the third is the value of a panic of the handler,
    which leaves the loop before either test.  The registry never drops an
    entry, so the lookup finds the topic; were it gone, there would be
    nothing to update. *)
Definition publish_iteration (k : string) (args : slice) (h : handler)
    (w : world) : world * option handler * option any :=
  match run h args w with
  | (w1, Some v) => (w1, Some h, Some v)
  | (w1, None) =>
      match topics w1 !! k with
      | None => (w1, Some h, None)
      | Some t =>
          let w2 := if once t then store k (clear_handlers t) w1 else w1 in
          let handler' := if onceEach t then None else Some h in
          (w2, handler', None)
      end
  end.

(** [for _, handler := range t.handlers { ... }].  Go evaluates the range
    expression once: the loop walks the slice [t.handlers] as it was on
    entry ([snapshot]), whatever is assigned to [t.handlers] meanwhile
    ([append] never writes below the length of the slice it is given).
    The loop variable is fresh in each iteration, and what the iteration
    leaves in it is dropped. *)
Fixpoint publish_range (k : string) (args : slice) (snapshot : list handler)
    (w : world) : world * list (handler * slice) * option any :=
  match snapshot with
  | [] => (w, [], None)
  | h :: rest =>
      match publish_iteration k args h w with
      | (w', _, Some v) => (w', [(h, args)], Some v)
      | (w', _, None) =>
          let '(w'', calls, p) := publish_range k args rest w' in
          (w'', (h, args) :: calls, p)
      end
  end.

(** [func (t *topic) publish(args []any, try bool) error], [t] being the
    struct found under [k] when the method is entered. *)
Definition topic_publish (k : string) (t : topic) (args : slice)
    (try : bool) (w : world) : result :=
  if closed t then Result w [] (Return None)
  else
    let '(w', calls, p) := publish_range k args (handlers t) w in
    Result w' calls (match p with Some v => Panic v | None => Return None end).

(** ** The registry *)

(** [func New() PubSub], in a program whose other memory is [m]. *)
Definition New (m : W) : world := {| topics := ∅; mem := m |}.

(** [func (p *pubsub) subscribe(topic string, handler func(...any), once, onceEach bool) error] *)
Definition subscribe (topicName : string) (h : handler)
    (once' onceEach' : bool) (w : world) : world * error :=
  let '(t, w1) :=
    match topics w !! topicName with
    | Some t => (t, w)
    | None => let t := newTopic topicName in (t, store topicName t w)
    end in
  let '(t', err) := topic_subscribe h once' onceEach' t in
  (store topicName t' w1, err).

(** [func (p *pubsub) Subscribe(topic string, handler func(...any)) error] *)
Definition Subscribe (topicName : string) (h : handler) (w : world)
  : world * error := subscribe topicName h false false w.

(** [func (p *pubsub) SubscribeOnce(topic string, handler func(...any)) error] *)
Definition SubscribeOnce (topicName : string) (h : handler) (w : world)
  : world * error := subscribe topicName h true false w.

(** [func (p *pubsub) SubscribeOnceEach(topic string, handler func(...any)) error] *)
Definition SubscribeOnceEach (topicName : string) (h : handler) (w : world)
  : world * error := subscribe topicName h true true w.

(** [func (p *pubsub) Unsubscribe(topic string) error] *)
Definition Unsubscribe (topicName : string) (w : world) : world * error :=
  match topics w !! topicName with
  | None => (w, None)
  | Some t => let '(t', err) := topic_unsubscribe t in (store topicName t' w, err)
  end.

(** [func (p *pubsub) CloseTopic(topic string) error] *)
Definition CloseTopic (topicName : string) (w : world) : world * error :=
  match topics w !! topicName with
  | None => (w, None)
  | Some t => let '(t', err) := topic_close t in (store topicName t' w, err)
  end.

(** [for _, t := range p.topics { if err := f(t); err != nil { return err } }]
    followed by [return nil], over the keys [ks] of the map. *)
Fixpoint sweep (f : topic → topic * error) (ks : list string) (w : world)
  : world * error :=
  match ks with
  | [] => (w, None)
  | k :: ks' =>
      match topics w !! k with
      | None => sweep f ks' w
      | Some t =>
          let '(t', err) := f t in
          match err with
          | Some e => (store k t' w, Some e)
          | None => sweep f ks' (store k t' w)
          end
      end
  end.

(** [func (p *pubsub) UnsubscribeAll() error] *)
Definition UnsubscribeAll (w : world) : world * error :=
  sweep topic_unsubscribe (map_to_list (topics w)).*1 w.

(** [func (p *pubsub) Shutdown() error] *)
Definition Shutdown (w : world) : world * error :=
  sweep topic_close (map_to_list (topics w)).*1 w.

(** [func (p *pubsub) publish(topic string, args []any, try bool) error] *)
Definition publish (topicName : string) (args : slice) (try : bool)
    (w : world) : result :=
  match topics w !! topicName with
  | None => Result w [] (Return None)
  | Some t => topic_publish topicName t args try w
  end.

(** [func (p *pubsub) Publish(topic string, args ...any) error] *)
Definition Publish (topicName : string) (args : slice) (w : world) : result :=
  publish topicName args false w.

(** [func (p *pubsub) TryPublish(topic string, args ...any) error] *)
Definition TryPublish (topicName : string) (args : slice) (w : world) : result :=
  publish topicName args true w.

(** ** Clients *)

(** Subscribe calls made one after the other on one topic, each with its
    handler and its [once] and [onceEach] flags. *)
Definition subscribe_in_turn (T : string) (subs : list (handler * (bool * bool)))
    (w : world) : world :=
  foldl (λ w s, (subscribe T s.1 s.2.1 s.2.2 w).1) w subs.

(** The nine operations of the [PubSub] interface (the constants of
    [type Operation]), each with the arguments of its method. *)
Inductive request :=
| DoSubscribe (topicName : string) (h : handler)
| DoSubscribeOnce (topicName : string) (h : handler)
| DoSubscribeOnceEach (topicName : string) (h : handler)
| DoPublish (topicName : string) (args : slice)
| DoTryPublish (topicName : string) (args : slice)
| DoUnsubscribe (topicName : string)
| DoUnsubscribeAll
| DoCloseTopic (topicName : string)
| DoShutdown.

(** The requests that subscribe to [T]. *)
Definition subscribes_to (T : string) (r : request) : Prop :=
  match r with
  | DoSubscribe T' _ | DoSubscribeOnce T' _ | DoSubscribeOnceEach T' _ => T' = T
  | _ => False
  end.

(** A method that calls no handler. *)
Definition silently (r : world * error) : result :=
  Result r.1 [] (Return r.2).

Definition perform (r : request) (w : world) : result :=
  match r with
  | DoSubscribe T h => silently (Subscribe T h w)
  | DoSubscribeOnce T h => silently (SubscribeOnce T h w)
  | DoSubscribeOnceEach T h => silently (SubscribeOnceEach T h w)
  | DoPublish T args => Publish T args w
  | DoTryPublish T args => TryPublish T args w
  | DoUnsubscribe T => silently (Unsubscribe T w)
  | DoUnsubscribeAll => silently (UnsubscribeAll w)
  | DoCloseTopic T => silently (CloseTopic T w)
  | DoShutdown => silently (Shutdown w)
  end.

(** A client performing requests one after the other; it goes on after a
    call that panicked (it may have recovered). *)
Definition perform_all (rs : list request) (w : world) : world :=
  foldl (λ w r, after (perform r w)) w rs.

(** A handler written against the [PubSub] interface: called with [args],
    the handler [h] performs the requests [script h args] and returns; the
    handlers that these requests call in turn behave as [run] says. *)
Definition scripted (script : handler → slice → list request)
  : handler → slice → world → world * option any :=
  λ h args w, (perform_all (script h args) w, None).

(** The states a program can get to from [w0]: it calls the methods of the
    dispatcher, and changes its own memory in between. *)
Inductive reachable_from (w0 : world) : world → Prop :=
| reached_start : reachable_from w0 w0
| reached_perform r w :
    reachable_from w0 w → reachable_from w0 (after (perform r w))
| reached_mem m w :
    reachable_from w0 w → reachable_from w0 {| topics := topics w; mem := m |}.

(** The states of a program that created the dispatcher with [New]. *)
Definition reachable (w : world) : Prop :=
  ∃ m, reachable_from (New m) w.

(** ** Properties of states and handlers *)

(** "[closed == true] implies [handlers] is empty". *)
Definition topic_ok (t : topic) : Prop :=
  closed t = true → handlers t = [].

Definition registry_ok (w : world) : Prop :=
  ∀ k t, topics w !! k = Some t → topic_ok t.

(** The topic [T] exists, is closed and has no handler. *)
Definition retired (T : string) (w : world) : Prop :=
  ∃ t, topics w !! T = Some t ∧ closed t = true ∧ handlers t = [].

(** What every method of the dispatcher guarantees of the registry: a
    retired topic stays retired, and the registry invariant is kept.  A
    handler that reaches the registry through the methods only guarantees
    the same. *)
Definition guarantee (w w' : world) : Prop :=
  (∀ T, retired T w → retired T w') ∧ (registry_ok w → registry_ok w').

Definition handlers_respect_registry : Prop :=
  ∀ h args w, guarantee w (run h args w).1.

(** The call [h(args...)] returns, in every state. *)
Definition returns (h : handler) : Prop :=
  ∀ args w, (run h args w).2 = None.

(** The call [h(args...)] panics with the value [v], in every state. *)
Definition panics (h : handler) (args : slice) (v : any) : Prop :=
  ∀ w, (run h args w).2 = Some v.

(** The call [h(args...)] leaves the topic [T] as it is. *)
Definition leaves (T : string) (h : handler) : Prop :=
  ∀ args w, topics (run h args w).1 !! T = topics w !! T.

(** The call [h(args...)] returns and keeps off the topic [T]. *)
Definition keeps_off (T : string) (h : handler) : Prop :=
  returns h ∧ leaves T h.

(** The topic that [pubsub.subscribe] works on: the one already in the
    map, or a new one. *)
Definition found_or_new (T : string) (w : world) : topic :=
  default (newTopic T) (topics w !! T).

(** ** Further properties of states and handlers *)

(** A property that every entry of the registry has, given the name it is
    kept under. *)
Definition entrywise (I : string → topic → Prop) (w : world) : Prop :=
  ∀ k t, topics w !! k = Some t → I k t.

(** Every topic is kept under its own name. *)
Definition named_by_key : world → Prop :=
  entrywise (λ k t, name t = k).

(** [onceEach] is never set without [once]. *)
Definition flags_coherent : world → Prop :=
  entrywise (λ _ t, onceEach t = true → once t = true).

(** The handlers keep a property of the state that holds when they are
    called. *)
Definition handlers_keep (P : world → Prop) : Prop :=
  ∀ h args w, P w → P (run h args w).1.

(** No entry of [w] is missing from [w']. *)
Definition keeps_entries (w w' : world) : Prop :=
  ∀ k, is_Some (topics w !! k) → is_Some (topics w' !! k).

Definition handlers_keep_entries : Prop :=
  ∀ h args w, keeps_entries w (run h args w).1.

(** The state in which the loop of [topic.publish], on the topic kept
    under [T], goes on after the call [h(args...)] has returned: the state
    that the call left, with [t.handlers = nil] done when [t.once] is set
    then. *)
Definition after_call (T : string) (args : slice) (w : world) (h : handler)
  : world :=
  let w1 := (run h args w).1 in
  match topics w1 !! T with
  | Some t => if once t then store T (clear_handlers t) w1 else w1
  | None => w1
  end.

(** What [topic.unsubscribe] and [topic.close] leave of a topic. *)
Definition shut (t : topic) : topic := (topic_unsubscribe t).1.

End Dispatcher.

Arguments topic : clear implicits.
Arguments world : clear implicits.
Arguments completion : clear implicits.
Arguments result : clear implicits.
Arguments request : clear implicits.

(** ** A program to run the dispatcher in

    Handlers are numbered, arguments and panic values are strings, and the
    program has no memory of its own. *)
Module Demo.

Definition state : Type := world nat unit.
Definition behaviour : Type := nat → list string → state → state * option string.

(** Handlers that return and leave the registry alone. *)
Definition idle : behaviour := λ _ _ w, (w, None).

(** Handler 2 panics; the others are idle. *)
Definition second_fails : behaviour :=
  λ h _ w, (w, if decide (h = 2) then Some "boom" else None).

(** Handlers that call back into the dispatcher: handler 7 subscribes
    handler 8 to topic "t", handler 9 closes topic "t". *)
Definition calling_back : behaviour :=
  scripted idle
    (λ h _, if decide (h = 7) then [DoSubscribe "t" 8]
            else if decide (h = 9) then [DoCloseTopic "t"]
            else []).


(** [ps := New()] *)
Definition fresh : state := New tt.

(** [ps.Subscribe("t", h1); ps.Subscribe("t", h2); ps.Subscribe("t", h3)] *)
Definition three : state :=
  (Subscribe "t" 3 (Subscribe "t" 2 (Subscribe "t" 1 fresh).1).1).1.

(** The topic "t" as it is in [three]. *)
Definition t_three : topic nat :=
  {| name := "t"; handlers := [1; 2; 3]; once := false; onceEach := false;
     closed := false |}.

(** [three], then [ps.Unsubscribe("t")]. *)
Definition three_closed : state := (Unsubscribe "t" three).1.

(** The topic "t" as it is in [three_closed]. *)
Definition t_closed : topic nat :=
  {| name := "t"; handlers := []; once := false; onceEach := false;
     closed := true |}.

(** [three], then [ps.Subscribe("u", h7); ps.Subscribe("u", h9)]: the
    handlers of "u" call back to subscribe to "t" and to close "t". *)
Definition with_callers : state :=
  (Subscribe "u" 9 (Subscribe "u" 7 three).1).1.

(** A program that keeps a log: every handler appends its number to the
    log when it is called, and does nothing else. *)
Definition logging
  : nat → list string → world nat (list nat) → world nat (list nat) * option string :=
  λ h _ w, ({| topics := topics w; mem := mem w ++ [h] |}, None).

(** [three], in the program that keeps a log, the log empty. *)
Definition three_logged : world nat (list nat) :=
  (Subscribe "t" 3 (Subscribe "t" 2 (Subscribe "t" 1 (New [])).1).1).1.

End Demo.

Section Facts.

Context {handler slice any W : Type}.
Context (run : handler → slice → world handler W → world handler W * option any).

Implicit Types (t : topic handler) (w : world handler W) (h : handler)
  (args : slice) (T k : string).

(** ** Basic facts *)

Lemma store_same k t w : topics w !! k = Some t → store k t w = w.
Proof.
  intros Hk. destruct w as [m x]; unfold store; simpl in *.
  f_equal. by apply insert_id.
Qed.

Lemma lookup_store k k' t w :
  topics (store k t w) !! k' = if decide (k = k') then Some t else topics w !! k'.
Proof. unfold store; simpl. apply lookup_insert. Qed.

Lemma lookup_store_eq k t w : topics (store k t w) !! k = Some t.
Proof. rewrite lookup_store. by rewrite decide_True. Qed.

Lemma lookup_store_ne k k' t w : k ≠ k' → topics (store k t w) !! k' = topics w !! k'.
Proof. intros. rewrite lookup_store. by rewrite decide_False. Qed.

Lemma topic_subscribe_closed h o oe t :
  closed t = true → topic_subscribe h o oe t = (t, None).
Proof. intros Hc. unfold topic_subscribe. by rewrite Hc. Qed.

Lemma topic_subscribe_open h o oe t :
  closed t = false →
  topic_subscribe h o oe t =
    ({| name := name t; handlers := handlers t ++ [h]; once := o;
        onceEach := oe; closed := false |}, None).
Proof. intros Hc. unfold topic_subscribe. by rewrite Hc. Qed.

Lemma topic_unsubscribe_closed t :
  closed t = true → topic_unsubscribe t = (t, None).
Proof. intros Hc. unfold topic_unsubscribe. by rewrite Hc. Qed.

Lemma topic_close_closed t : closed t = true → topic_close t = (t, None).
Proof. intros Hc. unfold topic_close. by rewrite Hc. Qed.

(** [close] and [unsubscribe] are the same function of the topic. *)
Lemma topic_close_unsubscribe t : topic_close t = topic_unsubscribe t.
Proof. reflexivity. Qed.

Lemma topic_unsubscribe_spec t :
  closed (topic_unsubscribe t).1 = true
  ∧ (topic_ok t → handlers (topic_unsubscribe t).1 = [])
  ∧ (topic_unsubscribe t).2 = None.
Proof.
  unfold topic_unsubscribe, topic_ok. destruct (closed t) eqn:Hc; simpl; auto.
Qed.

Lemma subscribe_unfold T h o oe w :
  subscribe T h o oe w =
    (store T (topic_subscribe h o oe (found_or_new T w)).1 w, None).
Proof.
  unfold subscribe, found_or_new.
  destruct (topics w !! T) as [t|] eqn:HT; simpl.
  - unfold topic_subscribe. by destruct (closed t).
  - unfold topic_subscribe, store; simpl. by rewrite insert_insert_eq.
Qed.

Lemma Unsubscribe_unfold T w :
  Unsubscribe T w =
    match topics w !! T with
    | None => (w, None)
    | Some t => (store T (topic_unsubscribe t).1 w, None)
    end.
Proof.
  unfold Unsubscribe. destruct (topics w !! T) as [t|]; [|done].
  unfold topic_unsubscribe. by destruct (closed t).
Qed.

(** At the level of the registry too, [CloseTopic] is [Unsubscribe]. *)
Lemma CloseTopic_Unsubscribe T w : CloseTopic T w = Unsubscribe T w.
Proof. reflexivity. Qed.

(** ** What the methods guarantee *)

Lemma guarantee_refl w : guarantee w w.
Proof. by split. Qed.

Lemma guarantee_trans w1 w2 w3 :
  guarantee w1 w2 → guarantee w2 w3 → guarantee w1 w3.
Proof. intros [R1 O1] [R2 O2]. split; auto. Qed.

Lemma guarantee_store k t' w :
  (∀ t, topics w !! k = Some t → closed t = true → handlers t = [] →
        closed t' = true ∧ handlers t' = []) →
  ((∀ t, topics w !! k = Some t → topic_ok t) → topic_ok t') →
  guarantee w (store k t' w).
Proof.
  intros Hret Hok. split.
  - intros T (t & HT & Hc & Hh). unfold retired.
    rewrite lookup_store. destruct (decide (k = T)) as [->|Hne].
    + exists t'. destruct (Hret t HT Hc Hh). auto.
    + exists t. auto.
  - intros Hw k' t1. rewrite lookup_store.
    destruct (decide (k = k')) as [->|Hne].
    + intros [= <-]. apply Hok. intros t Ht. by apply (Hw k').
    + apply Hw.
Qed.

Lemma guarantee_subscribe T h o oe w : guarantee w (subscribe T h o oe w).1.
Proof.
  rewrite subscribe_unfold; simpl. apply guarantee_store.
  - intros t HT Hc Hh. unfold found_or_new. rewrite HT; simpl.
    rewrite topic_subscribe_closed by done. auto.
  - intros Hok. unfold found_or_new, topic_subscribe.
    destruct (topics w !! T) as [t|] eqn:HT; simpl.
    + destruct (closed t) eqn:Hc; simpl; [by apply Hok|].
      unfold topic_ok; simpl. congruence.
    + unfold topic_ok; simpl. congruence.
Qed.

Lemma guarantee_unsubscribed k t w :
  topics w !! k = Some t → guarantee w (store k (topic_unsubscribe t).1 w).
Proof.
  intros Hk. apply guarantee_store.
  - intros t0 Ht0 Hc Hh. assert (t0 = t) as -> by congruence.
    rewrite topic_unsubscribe_closed by done. auto.
  - intros Hok. unfold topic_ok. intros _.
    by apply topic_unsubscribe_spec, Hok.
Qed.

Lemma guarantee_Unsubscribe T w : guarantee w (Unsubscribe T w).1.
Proof.
  rewrite Unsubscribe_unfold. destruct (topics w !! T) as [t|] eqn:HT; simpl.
  - by apply guarantee_unsubscribed.
  - apply guarantee_refl.
Qed.

Lemma sweep_unsubscribe_unfold ks w :
  sweep topic_unsubscribe ks w =
    (foldl (λ w k, match topics w !! k with
                   | None => w
                   | Some t => store k (topic_unsubscribe t).1 w
                   end) w ks, None).
Proof.
  revert w. induction ks as [|k ks IH]; intros w; simpl; [done|].
  destruct (topics w !! k) as [t|]; [|apply IH].
  unfold topic_unsubscribe at 1. destruct (closed t) eqn:Hc; simpl.
  - rewrite IH. by rewrite topic_unsubscribe_closed.
  - rewrite IH. unfold topic_unsubscribe. by rewrite Hc.
Qed.

Lemma guarantee_sweep ks w : guarantee w (sweep topic_unsubscribe ks w).1.
Proof.
  rewrite sweep_unsubscribe_unfold; simpl.
  revert w. induction ks as [|k ks IH]; intros w; simpl.
  - apply guarantee_refl.
  - eapply guarantee_trans; [|apply IH].
    destruct (topics w !! k) as [t|] eqn:Hk.
    + by apply guarantee_unsubscribed.
    + apply guarantee_refl.
Qed.

Lemma guarantee_clear k t w :
  topics w !! k = Some t → guarantee w (store k (clear_handlers t) w).
Proof.
  intros Hk. apply guarantee_store.
  - intros t0 Ht0 Hc Hh. assert (t0 = t) as -> by congruence. auto.
  - intros _ _. reflexivity.
Qed.

Lemma guarantee_publish_iteration k args h w :
  handlers_respect_registry run →
  guarantee w (publish_iteration run k args h w).1.1.
Proof.
  intros Hrun. unfold publish_iteration.
  pose proof (Hrun h args w) as G.
  destruct (run h args w) as [w1 [v|]]; simpl in *; [done|].
  destruct (topics w1 !! k) as [t|] eqn:Hk; simpl; [|done].
  destruct (once t); [|done].
  eapply guarantee_trans; [exact G|]. by apply guarantee_clear.
Qed.

Lemma guarantee_publish_range k args snapshot w :
  handlers_respect_registry run →
  guarantee w (publish_range run k args snapshot w).1.1.
Proof.
  intros Hrun. revert w.
  induction snapshot as [|h rest IH]; intros w; simpl.
  - apply guarantee_refl.
  - pose proof (guarantee_publish_iteration k args h w Hrun) as G.
    destruct (publish_iteration run k args h w) as [[w' hv] [v|]];
      simpl in *; [done|].
    specialize (IH w').
    destruct (publish_range run k args rest w') as [[w'' calls] p]; simpl in *.
    by eapply guarantee_trans.
Qed.

Lemma guarantee_publish T args try w :
  handlers_respect_registry run →
  guarantee w (after (publish run T args try w)).
Proof.
  intros Hrun. unfold publish, topic_publish.
  destruct (topics w !! T) as [t|]; simpl; [|apply guarantee_refl].
  destruct (closed t); simpl; [apply guarantee_refl|].
  pose proof (guarantee_publish_range T args (handlers t) w Hrun) as G.
  by destruct (publish_range run T args (handlers t) w) as [[w' calls] p].
Qed.

Lemma guarantee_perform r w :
  handlers_respect_registry run → guarantee w (after (perform run r w)).
Proof.
  intros Hrun. destruct r; simpl.
  - apply guarantee_subscribe.
  - apply guarantee_subscribe.
  - apply guarantee_subscribe.
  - by apply guarantee_publish.
  - by apply guarantee_publish.
  - apply guarantee_Unsubscribe.
  - apply guarantee_sweep.
  - apply guarantee_Unsubscribe.
  - apply guarantee_sweep.
Qed.

Lemma guarantee_perform_all rs w :
  handlers_respect_registry run → guarantee w (perform_all run rs w).
Proof.
  intros Hrun. revert w. induction rs as [|r rs IH]; intros w; simpl.
  - apply guarantee_refl.
  - eapply guarantee_trans; [by apply guarantee_perform|apply IH].
Qed.

Lemma registry_ok_New (m : W) : registry_ok (New (handler := handler) m).
Proof. intros k t. unfold New; simpl. by rewrite lookup_empty. Qed.

(** Handlers that reach the registry through its methods guarantee what the
    methods guarantee, at every depth of calls within calls. *)
Lemma scripted_respects script :
  handlers_respect_registry run →
  handlers_respect_registry (scripted run script).
Proof. intros Hrun h args w. by apply guarantee_perform_all. Qed.

Lemma guarantee_reachable_from w0 w :
  handlers_respect_registry run → reachable_from run w0 w → guarantee w0 w.
Proof.
  intros Hrun Hw. induction Hw as [|r w Hw IH|m w Hw IH].
  - apply guarantee_refl.
  - eapply guarantee_trans; [exact IH|by apply guarantee_perform].
  - eapply guarantee_trans; [exact IH|]. by split.
Qed.

Lemma reachable_from_perform_all rs w : reachable_from run w (perform_all run rs w).
Proof.
  induction rs as [|r rs IH] using rev_ind.
  - constructor.
  - unfold perform_all. rewrite foldl_app; simpl. by constructor.
Qed.

Lemma registry_ok_reachable w :
  handlers_respect_registry run → reachable run w → registry_ok w.
Proof.
  intros Hrun [m Hw].
  apply (guarantee_reachable_from _ _ Hrun Hw), registry_ok_New.
Qed.

(** ** The delivery loop *)

Lemma clear_handlers_empty t : handlers t = [] → clear_handlers t = t.
Proof. destruct t; simpl. by intros ->. Qed.

(** The loop over [l1 ++ l2] is the loop over [l1] followed, unless a
    handler panicked, by the loop over [l2]: the state after the loop over
    a prefix of the snapshot is the state in which the loop reaches the
    rest. *)
Lemma publish_range_app k args l1 l2 w :
  publish_range run k args (l1 ++ l2) w =
    match publish_range run k args l1 w with
    | (w1, calls1, Some v) => (w1, calls1, Some v)
    | (w1, calls1, None) =>
        let '(w2, calls2, p) := publish_range run k args l2 w1 in
        (w2, calls1 ++ calls2, p)
    end.
Proof.
  revert w. induction l1 as [|h l1 IH]; intros w; simpl.
  - by destruct (publish_range run k args l2 w) as [[w2 calls2] p].
  - destruct (publish_iteration run k args h w) as [[w' hv] [v|]]; [done|].
    rewrite IH.
    destruct (publish_range run k args l1 w') as [[w1 calls1] [v|]]; [done|].
    by destruct (publish_range run k args l2 w1) as [[w2 calls2] p].
Qed.

(** Handlers that return are all called, in the order of the snapshot, once
    each and with the arguments of the publish call, whatever they do to
    the registry. *)
Lemma publish_range_invoked k args snapshot w :
  Forall (returns run) snapshot →
  (publish_range run k args snapshot w).1.2 = map (λ h, (h, args)) snapshot
  ∧ (publish_range run k args snapshot w).2 = None.
Proof.
  intros Hret. revert w.
  induction Hret as [|h rest Hh Hrest IH]; intros w; simpl; [done|].
  unfold publish_iteration. specialize (Hh args w).
  destruct (run h args w) as [w1 p1]; simpl in Hh; subst p1.
  destruct (topics w1 !! k) as [t|].
  - specialize (IH (if once t then store k (clear_handlers t) w1 else w1)).
    destruct (publish_range _ _ _ rest _) as [[w'' calls] p]; simpl in *.
    destruct IH as [-> ->]. done.
  - specialize (IH w1).
    destruct (publish_range _ _ _ rest _) as [[w'' calls] p]; simpl in *.
    destruct IH as [-> ->]. done.
Qed.

(** The loop stops at the first handler that panics: the handlers before
    it and the handler itself have been called, those after it have not. *)
Lemma publish_range_panics k args pre h post v w :
  Forall (returns run) pre → panics run h args v →
  (publish_range run k args (pre ++ h :: post) w).1.2
    = map (λ h, (h, args)) (pre ++ [h])
  ∧ (publish_range run k args (pre ++ h :: post) w).2 = Some v.
Proof.
  intros Hpre Hp. revert w.
  induction Hpre as [|h0 pre Hh0 Hpre IH]; intros w; simpl.
  - unfold publish_iteration. specialize (Hp w).
    destruct (run h args w) as [w1 p1]; simpl in Hp; subst p1. done.
  - unfold publish_iteration. specialize (Hh0 args w).
    destruct (run h0 args w) as [w1 p1]; simpl in Hh0; subst p1.
    destruct (topics w1 !! k) as [t|].
    + specialize (IH (if once t then store k (clear_handlers t) w1 else w1)).
      destruct (publish_range _ _ _ (pre ++ h :: post) _) as [[w'' calls] p].
      simpl in *. destruct IH as [-> ->]. done.
    + specialize (IH w1).
      destruct (publish_range _ _ _ (pre ++ h :: post) _) as [[w'' calls] p].
      simpl in *. destruct IH as [-> ->]. done.
Qed.

(** When the handlers moreover leave the topic alone, the topic ends as the
    loop alone makes it. *)
Lemma publish_range_topic k args snapshot w t :
  topics w !! k = Some t →
  Forall (keeps_off run k) snapshot →
  topics (publish_range run k args snapshot w).1.1 !! k =
    Some (match snapshot with
          | [] => t
          | _ :: _ => if once t then clear_handlers t else t
          end).
Proof.
  intros Hk Hq. revert w t Hk.
  induction Hq as [|h rest [Hret Hlv] Hrest IH]; intros w t Hk; simpl; [done|].
  unfold publish_iteration.
  specialize (Hret args w). specialize (Hlv args w).
  destruct (run h args w) as [w1 p1]; simpl in *; subst p1.
  rewrite Hlv, Hk.
  set (w2 := if once t then store k (clear_handlers t) w1 else w1).
  assert (topics w2 !! k = Some (if once t then clear_handlers t else t)) as Hk2.
  { subst w2. destruct (once t); [apply lookup_store_eq|congruence]. }
  specialize (IH w2 _ Hk2).
  destruct (publish_range run k args rest w2) as [[w'' calls] p]; simpl in *.
  rewrite IH. destruct rest; [done|].
  destruct (once t) eqn:Ho; simpl; by rewrite ?Ho.
Qed.

(** ** [publish] *)

Lemma publish_absent T args try w :
  topics w !! T = None → publish run T args try w = Result w [] (Return None).
Proof. intros HT. unfold publish. by rewrite HT. Qed.

Lemma publish_closed T t args try w :
  topics w !! T = Some t → closed t = true →
  publish run T args try w = Result w [] (Return None).
Proof. intros HT Hc. unfold publish, topic_publish. by rewrite HT, Hc. Qed.

(** [topic.publish] never reads its parameter [try]. *)
Lemma publish_try T args try w :
  publish run T args try w = publish run T args false w.
Proof. unfold publish. by destruct (topics w !! T). Qed.

Lemma publish_open T t args try w :
  topics w !! T = Some t → closed t = false →
  publish run T args try w =
    let '(w', calls, p) := publish_range run T args (handlers t) w in
    Result w' calls (match p with Some v => Panic v | None => Return None end).
Proof. intros HT Hc. unfold publish, topic_publish. by rewrite HT, Hc. Qed.

Lemma publish_open_invoked T t args try w :
  topics w !! T = Some t → closed t = false →
  Forall (returns run) (handlers t) →
  invoked (publish run T args try w) = map (λ h, (h, args)) (handlers t)
  ∧ outcome (publish run T args try w) = Return None.
Proof.
  intros HT Hc Hret. rewrite (publish_open T t) by done.
  destruct (publish_range_invoked T args (handlers t) w Hret) as [Hi Hp].
  destruct (publish_range run T args (handlers t) w) as [[w' calls] p].
  simpl in *. by subst.
Qed.

Lemma publish_open_topic T t args try w :
  topics w !! T = Some t → closed t = false →
  Forall (keeps_off run T) (handlers t) →
  topics (after (publish run T args try w)) !! T =
    Some (if once t then clear_handlers t else t).
Proof.
  intros HT Hc Hq. rewrite (publish_open T t) by done.
  pose proof (publish_range_topic T args (handlers t) w t HT Hq) as Hk.
  destruct (publish_range run T args (handlers t) w) as [[w' calls] p].
  simpl in *. rewrite Hk.
  destruct (handlers t) eqn:Hh; [|done].
  destruct (once t); [|done]. by rewrite clear_handlers_empty.
Qed.

(** When the handlers return, the loop leaves the state that the calls
    leave, made one after the other in the order of the snapshot, each on
    the state left by the one before. *)
Lemma publish_range_after k args snapshot w :
  Forall (returns run) snapshot →
  (publish_range run k args snapshot w).1.1
    = foldl (after_call run k args) w snapshot.
Proof.
  intros Hret. revert w.
  induction Hret as [|h rest Hh Hrest IH]; intros w; simpl; [done|].
  unfold publish_iteration, after_call at 2. specialize (Hh args w).
  destruct (run h args w) as [w1 p1]; simpl in Hh; subst p1. simpl.
  destruct (topics w1 !! k) as [t|].
  - specialize (IH (if once t then store k (clear_handlers t) w1 else w1)).
    destruct (publish_range _ _ _ rest _) as [[w'' calls] p]; simpl in *.
    exact IH.
  - specialize (IH w1).
    destruct (publish_range _ _ _ rest _) as [[w'' calls] p]; simpl in *.
    exact IH.
Qed.

Lemma publish_open_after T t args try w :
  topics w !! T = Some t → closed t = false →
  Forall (returns run) (handlers t) →
  after (publish run T args try w) = foldl (after_call run T args) w (handlers t).
Proof.
  intros HT Hc Hret. rewrite (publish_open T t) by done.
  pose proof (publish_range_after T args (handlers t) w Hret) as Ha.
  by destruct (publish_range run T args (handlers t) w) as [[w' calls] p].
Qed.

(** On a topic whose [once] flag is not set and which the handlers leave
    alone, the calls are all that the loop does. *)
Lemma after_call_persistent T t args hs w :
  topics w !! T = Some t → once t = false → Forall (leaves run T) hs →
  foldl (after_call run T args) w hs = foldl (λ w h, (run h args w).1) w hs.
Proof.
  intros HT Ho Hl. revert w HT.
  induction Hl as [|h rest Hh Hrest IH]; intros w HT; simpl; [done|].
  assert (after_call run T args w h = (run h args w).1) as ->.
  { unfold after_call. rewrite (Hh args w), HT. by rewrite Ho. }
  apply IH. by rewrite (Hh args w).
Qed.

(** A publish call never returns an error. *)
Lemma publish_returns_nil T args try w e :
  outcome (publish run T args try w) = Return e → e = None.
Proof.
  unfold publish, topic_publish.
  destruct (topics w !! T) as [t|]; simpl; [|congruence].
  destruct (closed t); simpl; [congruence|].
  destruct (publish_range run T args (handlers t) w) as [[w' calls] [v|]];
    simpl; congruence.
Qed.

Lemma subscribe_lookup T t h o oe w :
  topics w !! T = Some t →
  topics (subscribe T h o oe w).1 !! T = Some (topic_subscribe h o oe t).1.
Proof.
  intros HT. rewrite subscribe_unfold. cbn [fst]. rewrite lookup_store_eq.
  unfold found_or_new. by rewrite HT.
Qed.

Lemma subscribe_lookup_ne T T' h o oe w :
  T ≠ T' → topics (subscribe T h o oe w).1 !! T' = topics w !! T'.
Proof. intros. rewrite subscribe_unfold. cbn [fst]. by rewrite lookup_store_ne. Qed.

Lemma subscribe_closed T t h o oe w :
  topics w !! T = Some t → closed t = true → subscribe T h o oe w = (w, None).
Proof.
  intros HT Hc. rewrite subscribe_unfold. unfold found_or_new. rewrite HT.
  cbn [default]. rewrite topic_subscribe_closed by done. cbn [fst].
  by rewrite store_same.
Qed.

(** ** Names without an entry

    A name that no subscribe call has named has no entry: [New] makes the
    map empty, and only [pubsub.subscribe] adds to it, under the name it is
    given. *)

Lemma absent_New T (m : W) : topics (New (handler := handler) m) !! T = None.
Proof. apply lookup_empty. Qed.

Lemma absent_sweep T ks w :
  topics w !! T = None → topics (sweep topic_unsubscribe ks w).1 !! T = None.
Proof.
  rewrite sweep_unsubscribe_unfold; cbn [fst].
  revert w. induction ks as [|k ks IH]; intros w HT; simpl; [done|].
  apply IH. destruct (topics w !! k) as [t|] eqn:Hk; [|done].
  rewrite lookup_store_ne; [done|congruence].
Qed.

Lemma absent_publish_range T k args snapshot w :
  (∀ h args w, topics w !! T = None → topics (run h args w).1 !! T = None) →
  topics w !! T = None →
  topics (publish_range run k args snapshot w).1.1 !! T = None.
Proof.
  intros Hrun. revert w. induction snapshot as [|h rest IH]; intros w HT; simpl.
  - done.
  - unfold publish_iteration. specialize (Hrun h args w HT).
    destruct (run h args w) as [w1 [v|]]; simpl in *; [done|].
    destruct (topics w1 !! k) as [t|] eqn:Hk.
    + assert (topics (if once t then store k (clear_handlers t) w1 else w1) !! T
              = None) as HT2.
      { destruct (once t); [|done]. rewrite lookup_store_ne; [done|congruence]. }
      specialize (IH _ HT2).
      by destruct (publish_range run k args rest _) as [[w'' calls] p].
    + specialize (IH _ Hrun).
      by destruct (publish_range run k args rest _) as [[w'' calls] p].
Qed.

Lemma absent_perform T r w :
  (∀ h args w, topics w !! T = None → topics (run h args w).1 !! T = None) →
  ¬ subscribes_to T r →
  topics w !! T = None → topics (after (perform run r w)) !! T = None.
Proof.
  intros Hrun Hr HT.
  assert (∀ T' args try, topics (after (publish run T' args try w)) !! T = None)
    as Hpub.
  { intros T' args try. unfold publish, topic_publish.
    destruct (topics w !! T') as [t|]; simpl; [|done].
    destruct (closed t); simpl; [done|].
    pose proof (absent_publish_range T T' args (handlers t) w Hrun HT) as H.
    by destruct (publish_range run T' args (handlers t) w) as [[w' calls] p]. }
  assert (∀ T', topics (Unsubscribe T' w).1 !! T = None) as Hun.
  { intros T'. rewrite Unsubscribe_unfold.
    destruct (topics w !! T') as [t|] eqn:HT'; cbn [fst]; [|done].
    rewrite lookup_store_ne; [done|congruence]. }
  destruct r; simpl in *; try done; try apply Hpub; try apply Hun;
    try (by apply absent_sweep);
    unfold Subscribe, SubscribeOnce, SubscribeOnceEach;
    by rewrite subscribe_lookup_ne.
Qed.

Lemma absent_perform_all T rs w :
  (∀ h args w, topics w !! T = None → topics (run h args w).1 !! T = None) →
  Forall (λ r, ¬ subscribes_to T r) rs →
  topics w !! T = None → topics (perform_all run rs w) !! T = None.
Proof.
  intros Hrun Hrs. revert w.
  induction Hrs as [|r rs Hr Hrs IH]; intros w HT; simpl; [done|].
  apply IH. by apply absent_perform.
Qed.

Lemma absent_no_effect T args w :
  topics w !! T = None →
  Publish run T args w = Result w [] (Return None)
  ∧ TryPublish run T args w = Result w [] (Return None)
  ∧ Unsubscribe T w = (w, None)
  ∧ CloseTopic T w = (w, None).
Proof.
  intros HT. unfold Publish, TryPublish, Unsubscribe, CloseTopic.
  rewrite !publish_absent by done. by rewrite HT.
Qed.

Lemma subscribe_in_turn_lookup T t subs w :
  topics w !! T = Some t → closed t = false →
  ∃ t', topics (subscribe_in_turn T subs w) !! T = Some t'
        ∧ handlers t' = handlers t ++ subs.*1 ∧ closed t' = false.
Proof.
  revert t w. induction subs as [|[h [o oe]] subs IH]; intros t w HT Hc; simpl.
  - exists t. by rewrite app_nil_r.
  - pose proof (subscribe_lookup T t h o oe w HT) as HT1.
    rewrite topic_subscribe_open in HT1 by done.
    destruct (IH _ _ HT1 eq_refl) as (t' & HT' & Hh' & Hc').
    exists t'. simpl in Hh'. rewrite <- app_assoc in Hh'. done.
Qed.

Lemma subscribe_lookup_eq T h o oe w :
  topics (subscribe T h o oe w).1 !! T =
    Some (topic_subscribe h o oe (found_or_new T w)).1.
Proof. rewrite subscribe_unfold. cbn [fst]. apply lookup_store_eq. Qed.

Lemma publish_no_handlers T t args try w :
  topics w !! T = Some t → handlers t = [] →
  publish run T args try w = Result w [] (Return None).
Proof.
  intros HT Hh. unfold publish, topic_publish. rewrite HT, Hh.
  by destruct (closed t).
Qed.

Lemma keeps_off_returns T hs :
  Forall (keeps_off run T) hs → Forall (returns run) hs.
Proof. intros H. eapply Forall_impl; [exact H|]. by intros h [? ?]. Qed.

(** A publish call on an open topic whose [once] flag is set calls every
    handler and leaves the topic open and without handlers. *)
Lemma publish_once_clears T t args try w :
  topics w !! T = Some t → closed t = false → once t = true →
  Forall (keeps_off run T) (handlers t) →
  invoked (publish run T args try w) = map (λ h, (h, args)) (handlers t)
  ∧ outcome (publish run T args try w) = Return None
  ∧ topics (after (publish run T args try w)) !! T = Some (clear_handlers t).
Proof.
  intros HT Hc Ho Hq.
  destruct (publish_open_invoked T t args try w HT Hc (keeps_off_returns _ _ Hq)).
  pose proof (publish_open_topic T t args try w HT Hc Hq) as Hk.
  rewrite Ho in Hk. auto.
Qed.

(** ** The properties of the specification *)

(** C7. For a topic name [T] that has never been subscribed to (the client
    has made no subscribe call naming [T] since [New], and no handler
    creates the entry), [Publish(T)], [TryPublish(T)], [Unsubscribe(T)] and
    [CloseTopic(T)] each return nil, call no handler and leave the whole
    state as it was: no entry is created and no topic is changed. *)
Theorem never_subscribed_no_effect T args (m : W) rs :
  (∀ h args w, topics w !! T = None → topics (run h args w).1 !! T = None) →
  Forall (λ r, ¬ subscribes_to T r) rs →
  let w := perform_all run rs (New m) in
  Publish run T args w = Result w [] (Return None)
  ∧ TryPublish run T args w = Result w [] (Return None)
  ∧ Unsubscribe T w = (w, None)
  ∧ CloseTopic T w = (w, None).
Proof.
  intros Hrun Hrs w. apply absent_no_effect.
  apply absent_perform_all; [done|done|apply absent_New].
Qed.

(** C10. A subscribe call (any of the three variants) on a closed topic
    returns nil, registers nothing and changes no state; a subscribe call
    returns nil in every state, so the returned value does not tell a
    subscription that took effect from one that was dropped. *)
Theorem subscribe_on_closed_topic_dropped T t h w :
  topics w !! T = Some t → closed t = true →
  Subscribe T h w = (w, None)
  ∧ SubscribeOnce T h w = (w, None)
  ∧ SubscribeOnceEach T h w = (w, None)
  ∧ (∀ T' h' o oe w', (subscribe T' h' o oe w').2 = None).
Proof.
  intros HT Hc. unfold Subscribe, SubscribeOnce, SubscribeOnceEach.
  rewrite !(subscribe_closed T t) by done. repeat split.
  intros T' h' o oe w'. by rewrite subscribe_unfold.
Qed.

(** C8. On an open topic, after any further subscribe calls, a publish
    call calls the handlers in the order in which they were subscribed (the
    handlers the topic had, then the new ones in the order of the calls),
    each entry once, each with exactly the arguments of the publish call,
    and returns nil.  The calls are made: the state that the publish call
    leaves is the state that these calls leave, made one after the other,
    each on the state left by the one before (with [t.handlers = nil] after
    a call when [once] is set); on a topic whose [once] flag is not set and
    which the handlers leave alone, it is the state left by the calls and
    nothing else.  This needs the handlers to return, and holds whatever
    they do to the registry meanwhile. *)
Theorem publish_invokes_in_subscription_order T t subs args w :
  topics w !! T = Some t → closed t = false →
  Forall (returns run) (handlers t ++ subs.*1) →
  let w' := subscribe_in_turn T subs w in
  let hs := handlers t ++ subs.*1 in
  invoked (Publish run T args w') = map (λ h, (h, args)) hs
  ∧ outcome (Publish run T args w') = Return None
  ∧ after (Publish run T args w') = foldl (after_call run T args) w' hs
  ∧ invoked (TryPublish run T args w') = map (λ h, (h, args)) hs
  ∧ outcome (TryPublish run T args w') = Return None
  ∧ after (TryPublish run T args w') = foldl (after_call run T args) w' hs
  ∧ ((∀ t', topics w' !! T = Some t' → once t' = false) →
     Forall (leaves run T) hs →
     after (Publish run T args w') = foldl (λ w h, (run h args w).1) w' hs
     ∧ after (TryPublish run T args w') = foldl (λ w h, (run h args w).1) w' hs).
Proof.
  intros HT Hc Hret w' hs.
  destruct (subscribe_in_turn_lookup T t subs w HT Hc) as (t' & HT' & Hh' & Hc').
  fold w' in HT'. fold hs in Hh', Hret. rewrite <- Hh' in Hret.
  unfold Publish, TryPublish.
  destruct (publish_open_invoked T t' args false w' HT' Hc' Hret) as [Hi1 Ho1].
  destruct (publish_open_invoked T t' args true w' HT' Hc' Hret) as [Hi2 Ho2].
  pose proof (publish_open_after T t' args false w' HT' Hc' Hret) as Ha1.
  pose proof (publish_open_after T t' args true w' HT' Hc' Hret) as Ha2.
  rewrite Hh' in Hi1, Hi2, Ha1, Ha2.
  split_and!; try done.
  intros Ho Hl. rewrite Ha1, Ha2.
  by rewrite (after_call_persistent T t' args hs w' HT' (Ho t' HT') Hl).
Qed.

(** C9. On an open topic a subscribe call appends the handler to the
    collection and sets both flags of the topic from the arguments of this
    call alone, whatever they were before.  The flags then govern every
    handler of the topic, those registered before included: the next
    publish call calls them all, and leaves none when [once] is set, all
    when it is not. *)
Theorem subscribe_appends_and_sets_mode T t h o oe args w :
  topics w !! T = Some t → closed t = false →
  let w1 := (subscribe T h o oe w).1 in
  subscribe T h o oe w = (w1, None)
  ∧ topics w1 !! T =
      Some {| name := name t; handlers := handlers t ++ [h];
              once := o; onceEach := oe; closed := false |}
  ∧ (Forall (keeps_off run T) (handlers t ++ [h]) →
     invoked (Publish run T args w1) = map (λ h, (h, args)) (handlers t ++ [h])
     ∧ ∃ t2, topics (after (Publish run T args w1)) !! T = Some t2
             ∧ handlers t2 = if o then [] else handlers t ++ [h]).
Proof.
  intros HT Hc w1.
  assert (topics w1 !! T =
      Some {| name := name t; handlers := handlers t ++ [h];
              once := o; onceEach := oe; closed := false |}) as HT1.
  { subst w1. rewrite (subscribe_lookup T t) by done.
    by rewrite topic_subscribe_open. }
  split; [subst w1; by rewrite subscribe_unfold|].
  split; [done|]. intros Hq. unfold Publish.
  destruct (publish_open_invoked T _ args false w1 HT1 eq_refl
              (keeps_off_returns _ _ Hq)) as [Hi _].
  split; [done|].
  rewrite (publish_open_topic T _ args false w1 HT1 eq_refl Hq). simpl.
  destruct o; eauto.
Qed.


(** With [once] unset and [onceEach] set (flags that no method of the
    registry sets together), a publish call removes nothing: the
    assignment [handler = nil] is to the loop variable. *)
Lemma onceEach_alone_removes_nothing T t args try w :
  topics w !! T = Some t → closed t = false →
  once t = false → onceEach t = true →
  Forall (keeps_off run T) (handlers t) →
  topics (after (publish run T args try w)) !! T = Some t.
Proof.
  intros HT Hc Ho _ Hq. rewrite (publish_open_topic T t) by done.
  by rewrite Ho.
Qed.

(** What a publish call does after [SubscribeOnceEach] on a topic that is
    not closed: it calls every handler registered on the topic, the
    collection is empty after the first call already and after each later
    one (the loop empties it by assigning to [t.handlers], since
    [SubscribeOnceEach] sets [once] too), and a later publish call calls no
    handler. *)
Theorem SubscribeOnceEach_fired_handlers_removed T h args try w :
  let t := found_or_new T w in
  closed t = false →
  Forall (keeps_off run T) (handlers t ++ [h]) →
  let w1 := (SubscribeOnceEach T h w).1 in
  let r1 := publish run T args try w1 in
  let emptied := {| name := name t; handlers := []; once := true;
                    onceEach := true; closed := false |} in
  invoked r1 = map (λ h, (h, args)) (handlers t ++ [h])
  ∧ outcome r1 = Return None
  ∧ (∀ pre h' post, handlers t ++ [h] = pre ++ h' :: post →
       topics (publish_range run T args (pre ++ [h']) w1).1.1 !! T
       = Some emptied)
  ∧ topics (after r1) !! T = Some emptied
  ∧ (∀ args' try', publish run T args' try' (after r1)
                   = Result (after r1) [] (Return None)).
Proof.
  intros t Hc Hq w1 r1 emptied.
  assert (topics w1 !! T =
      Some {| name := name t; handlers := handlers t ++ [h]; once := true;
              onceEach := true; closed := false |}) as HT1.
  { unfold w1, SubscribeOnceEach. rewrite subscribe_lookup_eq.
    by rewrite topic_subscribe_open. }
  destruct (publish_once_clears T _ args try _ HT1 eq_refl eq_refl Hq)
    as (Hi & Ho & Hk).
  fold r1 in Hi, Ho, Hk. unfold clear_handlers in Hk; simpl in Hk.
  repeat split; try done.
  - intros pre h' post Heq. rewrite Heq in Hq.
    apply Forall_app in Hq as [Hpre Hpost].
    apply Forall_cons in Hpost as [Hh' _].
    assert (Forall (keeps_off run T) (pre ++ [h'])) as Hq'.
    { apply Forall_app. split; [done|]. by apply Forall_singleton. }
    rewrite (publish_range_topic T args _ w1 _ HT1 Hq').
    by destruct pre.
  - intros args' try'. by apply (publish_no_handlers T _ args' try' _ Hk).
Qed.

(** What the publish calls do on an open topic with three handlers of
    which the first returns and the second panics (a [func(...any)] has no
    other way to fail): [TryPublish] calls the first and the second handler
    and not the third, and finishes with the panic of the second handler;
    no error is returned.  [Publish] does the same, and a publish call that
    returns, returns nil. *)
Theorem TryPublish_second_of_three_panics T t h1 h2 h3 v args w :
  topics w !! T = Some t → closed t = false → handlers t = [h1; h2; h3] →
  returns run h1 → panics run h2 args v →
  invoked (TryPublish run T args w) = [(h1, args); (h2, args)]
  ∧ outcome (TryPublish run T args w) = Panic v
  ∧ Publish run T args w = TryPublish run T args w
  ∧ (∀ T' args' w' e,
       outcome (TryPublish run T' args' w') = Return e → e = None).
Proof.
  intros HT Hc Hh Hr1 Hp2.
  assert (invoked (TryPublish run T args w) = [(h1, args); (h2, args)]
          ∧ outcome (TryPublish run T args w) = Panic v) as [Hi Ho].
  { unfold TryPublish. rewrite (publish_open T t) by done. rewrite Hh.
    destruct (publish_range_panics T args [h1] h2 [h3] v w) as [Hc' Hp'];
      [by apply Forall_singleton|done|].
    change ([h1] ++ h2 :: [h3]) with [h1; h2; h3] in *.
    destruct (publish_range run T args [h1; h2; h3] w) as [[w' calls] p].
    simpl in *. by subst. }
  split; [done|]. split; [done|].
  split; [unfold Publish, TryPublish; by rewrite (publish_try T args true)|].
  intros T' args' w' e. apply publish_returns_nil.
Qed.


(** C5. "[closed == true] implies [handlers] is empty" holds of a topic
    when [newTopic] has made it and of the registry when [New] has made
    it, every operation keeps it (subscribe, unsubscribe and close on the
    topic; every request to the registry, publish included), and so it
    holds in every state a program can reach; the handlers are taken to
    keep what the methods keep. *)
Theorem closed_topic_has_no_handlers :
  handlers_respect_registry run →
  (∀ T, topic_ok (newTopic T : topic handler))
  ∧ (∀ m, registry_ok (New m : world handler W))
  ∧ (∀ h o oe t, topic_ok t → topic_ok (topic_subscribe h o oe t).1)
  ∧ (∀ t, topic_ok t → topic_ok (topic_unsubscribe t).1)
  ∧ (∀ t, topic_ok t → topic_ok (topic_close t).1)
  ∧ (∀ r w, registry_ok w → registry_ok (after (perform run r w)))
  ∧ (∀ w, reachable run w → registry_ok w).
Proof.
  intros Hrun. split_and!.
  - intros T. unfold topic_ok; simpl. congruence.
  - apply registry_ok_New.
  - intros h o oe t Hok. unfold topic_subscribe.
    destruct (closed t) eqn:Hc; simpl; [done|].
    unfold topic_ok; simpl. congruence.
  - intros t Hok _. by apply topic_unsubscribe_spec.
  - intros t Hok _. by apply topic_unsubscribe_spec.
  - intros r w. by apply (guarantee_perform r w Hrun).
  - intros w. by apply registry_ok_reachable.
Qed.

(** C6, as the code has it.  Once [Unsubscribe(T)] or [CloseTopic(T)] has
    been performed on a name [T] that has a topic in the registry (a name
    that has been subscribed to), then whatever the program does next, the
    topic is closed and without handlers, [Publish(T)] and [TryPublish(T)]
    call no handler and change nothing, and [Subscribe(T, h)] (any
    variant) changes nothing: the topic is never open again.  The
    starting state satisfies the registry invariant, as every reachable
    state does, and the handlers are taken to keep what the methods
    keep. *)
Theorem closed_topic_never_revived T w0 w1 w :
  handlers_respect_registry run →
  registry_ok w0 → is_Some (topics w0 !! T) →
  w1 = (Unsubscribe T w0).1 ∨ w1 = (CloseTopic T w0).1 →
  reachable_from run w1 w →
  retired T w
  ∧ (∀ args, Publish run T args w = Result w [] (Return None))
  ∧ (∀ args, TryPublish run T args w = Result w [] (Return None))
  ∧ (∀ h, Subscribe T h w = (w, None)
          ∧ SubscribeOnce T h w = (w, None)
          ∧ SubscribeOnceEach T h w = (w, None)).
Proof.
  intros Hrun Hok [t HT] Hw1 Hw.
  assert (w1 = (Unsubscribe T w0).1) as -> by (by destruct Hw1).
  assert (retired T (Unsubscribe T w0).1) as Hret1.
  { rewrite Unsubscribe_unfold, HT. cbn [fst].
    exists (topic_unsubscribe t).1. rewrite lookup_store_eq.
    destruct (topic_unsubscribe_spec t) as (Hc & Hh & _).
    split; [done|]. split; [done|]. apply Hh. by apply (Hok T). }
  assert (retired T w) as Hret.
  { by apply (guarantee_reachable_from _ _ Hrun Hw). }
  split; [done|]. destruct Hret as (t' & HT' & Hc' & Hh').
  unfold Publish, TryPublish, Subscribe, SubscribeOnce, SubscribeOnceEach.
  repeat split; intros;
    first [by apply (publish_closed T t')|by apply (subscribe_closed T t')].
Qed.

End Facts.

(** ** The theorems at work on a program *)

Lemma idle_respects : handlers_respect_registry Demo.idle.
Proof. intros h args w. apply guarantee_refl. Qed.

Lemma calling_back_respects : handlers_respect_registry Demo.calling_back.
Proof. apply scripted_respects, idle_respects. Qed.

Lemma with_callers_reachable : reachable Demo.calling_back Demo.with_callers.
Proof.
  exists tt.
  apply (reached_perform _ _ (DoSubscribe "u" 9)).
  apply (reached_perform _ _ (DoSubscribe "u" 7)).
  apply (reached_perform _ _ (DoSubscribe "t" 3)).
  apply (reached_perform _ _ (DoSubscribe "t" 2)).
  apply (reached_perform _ _ (DoSubscribe "t" 1)).
  apply reached_start.
Qed.

Lemma never_subscribed_no_effect_witness :
  let w := perform_all Demo.idle
             [DoSubscribe "t" 1; DoPublish "t" ["x"]] Demo.fresh in
  Publish Demo.idle "u" ["x"] w = Result w [] (Return None)
  ∧ TryPublish Demo.idle "u" ["x"] w = Result w [] (Return None)
  ∧ Unsubscribe "u" w = (w, None)
  ∧ CloseTopic "u" w = (w, None).
Proof.
  apply (never_subscribed_no_effect Demo.idle "u" ["x"] tt
           [DoSubscribe "t" 1; DoPublish "t" ["x"]]).
  - intros h args w Hw. exact Hw.
  - repeat constructor; simpl; [discriminate|tauto].
Defined.

Lemma subscribe_on_closed_topic_dropped_witness :
  Subscribe "t" 4 Demo.three_closed = (Demo.three_closed, None)
  ∧ SubscribeOnce "t" 4 Demo.three_closed = (Demo.three_closed, None)
  ∧ SubscribeOnceEach "t" 4 Demo.three_closed = (Demo.three_closed, None)
  ∧ (∀ T' h' o oe (w' : Demo.state), (subscribe T' h' o oe w').2 = None).
Proof.
  apply (subscribe_on_closed_topic_dropped "t" Demo.t_closed 4 Demo.three_closed);
    reflexivity.
Defined.

Lemma publish_invokes_in_subscription_order_witness :
  let w' := subscribe_in_turn "t" [(7, (true, false)); (5, (false, false))]
              Demo.three_logged in
  invoked (Publish Demo.logging "t" ["x"] w')
    = [(1, ["x"]); (2, ["x"]); (3, ["x"]); (7, ["x"]); (5, ["x"])]
  ∧ outcome (Publish Demo.logging "t" ["x"] w') = Return None
  ∧ mem (after (Publish Demo.logging "t" ["x"] w')) = [1; 2; 3; 7; 5]
  ∧ mem (after (TryPublish Demo.logging "t" ["x"] w')) = [1; 2; 3; 7; 5].
Proof.
  destruct (publish_invokes_in_subscription_order Demo.logging "t"
              Demo.t_three [(7, (true, false)); (5, (false, false))] ["x"]
              Demo.three_logged eq_refl eq_refl)
    as (Hi & Ho & _ & _ & _ & _ & Hp).
  { repeat constructor. }
  split; [exact Hi|]. split; [exact Ho|].
  destruct Hp as [-> ->].
  - intros t' Ht'. vm_compute in Ht'. by injection Ht' as <-.
  - repeat constructor.
  - split; reflexivity.
Defined.

Lemma subscribe_appends_and_sets_mode_witness :
  let w1 := (subscribe "t" 4 true false Demo.three).1 in
  topics w1 !! "t" =
    Some {| name := "t"; handlers := [1; 2; 3; 4]; once := true;
            onceEach := false; closed := false |}
  ∧ invoked (Publish Demo.idle "t" ["x"] w1)
    = [(1, ["x"]); (2, ["x"]); (3, ["x"]); (4, ["x"])]
  ∧ ∃ t2, topics (after (Publish Demo.idle "t" ["x"] w1)) !! "t" = Some t2
          ∧ handlers t2 = [].
Proof.
  destruct (subscribe_appends_and_sets_mode Demo.idle "t" Demo.t_three 4
              true false ["x"] Demo.three eq_refl eq_refl) as (_ & Hk & Hp).
  split; [exact Hk|]. apply Hp.
  repeat constructor.
Defined.


Lemma SubscribeOnceEach_fired_handlers_removed_witness :
  let w1 := (SubscribeOnceEach "t" 4 Demo.three).1 in
  let r1 := publish Demo.idle "t" ["x"] false w1 in
  let emptied := {| name := "t"; handlers := []; once := true;
                    onceEach := true; closed := false |} in
  invoked r1 = [(1, ["x"]); (2, ["x"]); (3, ["x"]); (4, ["x"])]
  ∧ outcome r1 = Return None
  ∧ (∀ pre h' post, [1; 2; 3; 4] = pre ++ h' :: post →
       topics (publish_range Demo.idle "t" ["x"] (pre ++ [h']) w1).1.1 !! "t"
       = Some emptied)
  ∧ topics (after r1) !! "t" = Some emptied
  ∧ (∀ args' try', publish Demo.idle "t" args' try' (after r1)
                   = Result (after r1) [] (Return None)).
Proof.
  apply (SubscribeOnceEach_fired_handlers_removed Demo.idle "t" 4 ["x"] false
           Demo.three).
  - reflexivity.
  - repeat constructor.
Defined.

Lemma TryPublish_second_of_three_panics_witness :
  invoked (TryPublish Demo.second_fails "t" ["x"] Demo.three)
    = [(1, ["x"]); (2, ["x"])]
  ∧ outcome (TryPublish Demo.second_fails "t" ["x"] Demo.three) = Panic "boom"
  ∧ Publish Demo.second_fails "t" ["x"] Demo.three
    = TryPublish Demo.second_fails "t" ["x"] Demo.three
  ∧ (∀ T' args' (w' : Demo.state) e,
       outcome (TryPublish Demo.second_fails T' args' w') = Return e →
       e = None).
Proof.
  apply (TryPublish_second_of_three_panics Demo.second_fails "t" Demo.t_three
           1 2 3 "boom" ["x"] Demo.three).
  - reflexivity.
  - reflexivity.
  - reflexivity.
  - intros args w. reflexivity.
  - intros w. reflexivity.
Defined.

(** With handlers 1, 2 and 3 on "t", the second of which panics,
    [TryPublish] does not return the error of the second handler; it
    returns nothing. *)
Lemma TryPublish_returns_second_error_counterexample :
  ¬ (panics Demo.second_fails 2 ["x"] "boom" →
     invoked (TryPublish Demo.second_fails "t" ["x"] Demo.three)
       = [(1, ["x"]); (2, ["x"])]
     ∧ ∃ e, outcome (TryPublish Demo.second_fails "t" ["x"] Demo.three)
            = Return (Some e)).
Proof.
  intros H. destruct H as (_ & e & He).
  - intros w. reflexivity.
  - vm_compute in He. discriminate He.
Qed.

(** C1.  [ps.SubscribeOnceEach("t", h1)], [ps.SubscribeOnceEach("t", h2)],
    then [ps.Publish("t", "x")].  In the iteration that calls [h1] the
    assignment [handler = nil] is made (the loop variable ends as nil) and
    takes nothing out of the collection; what the iteration leaves of the
    collection is what it leaves after [SubscribeOnce], without [onceEach]:
    nothing.  So [h2] is out of the collection before it is called, not
    after, and is called all the same.  With a third handler and the
    second one panicking, the third is out of the collection without ever
    having been called, and the next publish call calls nobody. *)
Theorem SubscribeOnceEach_removes_ahead_of_call :
  let w := (SubscribeOnceEach "t" 2 (SubscribeOnceEach "t" 1 Demo.fresh).1).1 in
  let step := publish_iteration Demo.idle "t" ["x"] 1 w in
  let w_once := (SubscribeOnce "t" 2 (SubscribeOnce "t" 1 Demo.fresh).1).1 in
  let step_once := publish_iteration Demo.idle "t" ["x"] 1 w_once in
  handlers <$> topics w !! "t" = Some [1; 2]
  ∧ step.1.2 = None
  ∧ handlers <$> topics step.1.1 !! "t" = Some []
  ∧ handlers <$> topics step_once.1.1 !! "t" = Some []
  ∧ invoked (Publish Demo.idle "t" ["x"] w) = [(1, ["x"]); (2, ["x"])]
  ∧ (let r := Publish Demo.second_fails "t" ["x"]
                (SubscribeOnceEach "t" 3 w).1 in
     invoked r = [(1, ["x"]); (2, ["x"])]
     ∧ outcome r = Panic "boom"
     ∧ handlers <$> topics (after r) !! "t" = Some []
     ∧ invoked (Publish Demo.second_fails "t" ["x"] (after r)) = []).
Proof. by vm_compute. Qed.

(** C2.  [ps.Subscribe("t", h1)], [ps.Subscribe("t", h2)],
    [ps.Subscribe("t", h3)], [h2] panicking, then [ps.TryPublish("t", "x")]:
    the first and the second handler are called and the third is not, but
    the call does not return the error of the second handler; it does not
    return, the panic goes on to the caller.  On no name, arguments and
    state does [TryPublish] return an error. *)
Theorem TryPublish_loses_error_of_second_handler :
  let r := TryPublish Demo.second_fails "t" ["x"] Demo.three in
  panics Demo.second_fails 2 ["x"] "boom"
  ∧ invoked r = [(1, ["x"]); (2, ["x"])]
  ∧ outcome r = Panic "boom"
  ∧ (∀ e, outcome r ≠ Return (Some e))
  ∧ (∀ T args (w : Demo.state) e,
       outcome (TryPublish Demo.second_fails T args w) = Return e → e = None).
Proof.
  split_and!.
  - intros w. reflexivity.
  - reflexivity.
  - reflexivity.
  - intros e H. vm_compute in H. discriminate H.
  - intros T args w e. apply publish_returns_nil.
Qed.

(** C6, as the specification has it, fails on a name that has no topic:
    after [ps.Unsubscribe("t")] on a new registry, [ps.Subscribe("t", h1)]
    makes an open topic and [ps.Publish("t", "x")] calls [h1]. *)
Lemma Unsubscribe_of_unknown_name_counterexample :
  ¬ (let w1 := (Unsubscribe "t" Demo.fresh).1 in
     let w2 := (Subscribe "t" 1 w1).1 in
     retired "t" w2 ∧ invoked (Publish Demo.idle "t" ["x"] w2) = []).
Proof. intros [_ H]. vm_compute in H. discriminate H. Qed.


Lemma closed_topic_has_no_handlers_witness :
  registry_ok (after (perform Demo.calling_back (DoPublish "u" ["x"])
                        Demo.with_callers)).
Proof.
  destruct (closed_topic_has_no_handlers Demo.calling_back
              calling_back_respects) as (_ & _ & _ & _ & _ & Hstep & Hreach).
  apply Hstep, Hreach, with_callers_reachable.
Defined.

Lemma closed_topic_never_revived_witness :
  let w1 := (Unsubscribe "t" Demo.with_callers).1 in
  let w := perform_all Demo.calling_back
             [DoPublish "u" ["x"]; DoSubscribeOnce "t" 5] w1 in
  retired "t" w
  ∧ (∀ args, Publish Demo.calling_back "t" args w = Result w [] (Return None))
  ∧ (∀ args, TryPublish Demo.calling_back "t" args w
             = Result w [] (Return None))
  ∧ (∀ h, Subscribe "t" h w = (w, None)
          ∧ SubscribeOnce "t" h w = (w, None)
          ∧ SubscribeOnceEach "t" h w = (w, None)).
Proof.
  apply (closed_topic_never_revived Demo.calling_back "t" Demo.with_callers
           (Unsubscribe "t" Demo.with_callers).1).
  - exact calling_back_respects.
  - exact (registry_ok_reachable _ _ calling_back_respects
             with_callers_reachable).
  - exists Demo.t_three. reflexivity.
  - left. reflexivity.
  - apply reachable_from_perform_all.
Defined.

(** The collection is emptied as a whole after the first call: when the
    second handler panics, handlers 3 and 4 are gone without having been
    called. *)
Example SubscribeOnceEach_clears_whole_collection :
  let r := Publish Demo.second_fails "t" ["x"]
             (SubscribeOnceEach "t" 4 Demo.three).1 in
  invoked r = [(1, ["x"]); (2, ["x"])]
  ∧ outcome r = Panic "boom"
  ∧ handlers <$> topics (after r) !! "t" = Some [].
Proof. by vm_compute. Qed.

(** A handler subscribed while the loop runs is not called by the loop: it
    is called by the next publish call. *)
Example subscribed_during_publish :
  let w := (Subscribe "t" 7 Demo.fresh).1 in
  let r := Publish Demo.calling_back "t" ["x"] w in
  invoked r = [(7, ["x"])]
  ∧ invoked (Publish Demo.calling_back "t" ["y"] (after r))
    = [(7, ["y"]); (8, ["y"])].
Proof. by vm_compute. Qed.

(** ** The sweeps: [UnsubscribeAll] and [Shutdown] *)

Section Sweeps.

Context {handler slice any W : Type}.
Context (run : handler → slice → world handler W → world handler W * option any).

Implicit Types (t : topic handler) (w : world handler W) (h : handler)
  (args : slice) (T k : string).

Lemma shut_closed t : closed (shut t) = true.
Proof. apply topic_unsubscribe_spec. Qed.

Lemma shut_shut t : shut (shut t) = shut t.
Proof.
  unfold shut at 1. by rewrite topic_unsubscribe_closed by apply shut_closed.
Qed.

Lemma world_eq w w' : topics w = topics w' → mem w = mem w' → w = w'.
Proof. destruct w, w'; simpl. by intros -> ->. Qed.

Lemma mem_sweep ks w : mem (sweep topic_unsubscribe ks w).1 = mem w.
Proof.
  rewrite sweep_unsubscribe_unfold; cbn [fst].
  revert w. induction ks as [|k ks IH]; intros w; simpl; [done|].
  rewrite IH. by destruct (topics w !! k).
Qed.

(** The loop shuts the topics it is given the names of and leaves the
    others; a name given twice, or a name without an entry, changes
    nothing. *)
Lemma lookup_sweep ks w k :
  topics (sweep topic_unsubscribe ks w).1 !! k =
    if decide (k ∈ ks) then shut <$> topics w !! k else topics w !! k.
Proof.
  rewrite sweep_unsubscribe_unfold; cbn [fst].
  revert w. induction ks as [|k0 ks IH]; intros w; cbn [foldl].
  - destruct (decide (k ∈ [])) as [Hin|]; [|done]. by apply elem_of_nil in Hin.
  - rewrite IH. clear IH.
    assert (topics (match topics w !! k0 with
                    | Some t => store k0 (topic_unsubscribe t).1 w
                    | None => w
                    end) !! k
            = if decide (k0 = k) then shut <$> topics w !! k
              else topics w !! k) as ->.
    { destruct (decide (k0 = k)) as [->|Hne].
      - destruct (topics w !! k) as [t|] eqn:Hk; simpl; [|done].
        apply lookup_store_eq.
      - destruct (topics w !! k0) as [t|]; [|done].
        by rewrite lookup_store_ne. }
    destruct (decide (k0 = k)) as [->|Hne].
    + destruct (decide (k ∈ k :: ks)) as [_|Hnin];
        [|destruct Hnin; apply list_elem_of_here].
      destruct (decide (k ∈ ks)); [|done].
      destruct (topics w !! k) as [t|]; simpl; [|done]. by rewrite shut_shut.
    + destruct (decide (k ∈ ks)) as [Hin|Hnin];
        destruct (decide (k ∈ k0 :: ks)) as [Hin'|Hnin']; try done.
      * destruct Hnin'. by apply list_elem_of_further.
      * apply elem_of_cons in Hin' as [?|?]; [congruence|done].
Qed.

Lemma elem_of_keys (m : gmap string (topic handler)) k :
  k ∈ (map_to_list m).*1 ↔ is_Some (m !! k).
Proof.
  rewrite list_elem_of_fmap. split.
  - intros [[k' t] [-> Hin]]. apply elem_of_map_to_list in Hin. by exists t.
  - intros [t Ht]. exists (k, t). split; [done|]. by apply elem_of_map_to_list.
Qed.

Lemma sweep_all ks w :
  (∀ k, is_Some (topics w !! k) → k ∈ ks) →
  sweep topic_unsubscribe ks w =
    ({| topics := shut <$> topics w; mem := mem w |}, None).
Proof.
  intros Hks.
  rewrite (surjective_pairing (sweep topic_unsubscribe ks w)). f_equal.
  - apply world_eq; simpl; [|apply mem_sweep].
    apply map_eq. intros k. rewrite lookup_sweep, lookup_fmap.
    destruct (decide (k ∈ ks)) as [|Hnin]; [done|].
    destruct (topics w !! k) as [t|] eqn:Hk; [|done].
    destruct Hnin. apply Hks. by rewrite Hk.
  - by rewrite sweep_unsubscribe_unfold.
Qed.

Lemma UnsubscribeAll_unfold w :
  UnsubscribeAll w = ({| topics := shut <$> topics w; mem := mem w |}, None).
Proof. apply sweep_all. intros k. apply elem_of_keys. Qed.

(** X1. [UnsubscribeAll] returns nil and leaves the registry with the same
    names, every topic shut as [topic.unsubscribe] shuts it and the memory
    of the program untouched: every topic is closed afterwards, and has no
    handler when the registry invariant held before.  [Shutdown] does the
    same. *)
Theorem UnsubscribeAll_shuts_every_topic w :
  UnsubscribeAll w = ({| topics := shut <$> topics w; mem := mem w |}, None)
  ∧ Shutdown w = UnsubscribeAll w
  ∧ dom (topics (UnsubscribeAll w).1) = dom (topics w)
  ∧ (∀ k t, topics (UnsubscribeAll w).1 !! k = Some t → closed t = true)
  ∧ (registry_ok w →
     ∀ k t, topics (UnsubscribeAll w).1 !! k = Some t → handlers t = []).
Proof.
  rewrite UnsubscribeAll_unfold. cbn [fst topics]. split_and!.
  - done.
  - apply UnsubscribeAll_unfold.
  - apply dom_fmap_L.
  - intros k t. rewrite lookup_fmap.
    destruct (topics w !! k) as [t0|]; simpl; [|done].
    intros [= <-]. apply shut_closed.
  - intros Hok k t. rewrite lookup_fmap.
    destruct (topics w !! k) as [t0|] eqn:Hk; simpl; [|done].
    intros [= <-]. by apply topic_unsubscribe_spec, (Hok k).
Qed.

(** X2. The order in which the loop of [UnsubscribeAll] or [Shutdown]
    meets the topics does not matter (Go leaves the order of [range] over
    a map open): the loop run over any list of names that has every name
    of the registry, in any order and with repetitions, gives the result
    of the method. *)
Theorem sweep_order_irrelevant ks w :
  (∀ k, is_Some (topics w !! k) → k ∈ ks) →
  sweep topic_unsubscribe ks w = UnsubscribeAll w
  ∧ sweep topic_close ks w = Shutdown w.
Proof.
  intros Hks. rewrite UnsubscribeAll_unfold.
  split; [by apply sweep_all|].
  etransitivity; [|symmetry; apply UnsubscribeAll_unfold].
  by apply (sweep_all ks w).
Qed.

(** X3. After [Shutdown] (or [UnsubscribeAll]) a publish call on any name
    calls no handler and changes nothing, and a subscribe call on a name
    the registry had is dropped. *)
Theorem Shutdown_silences_every_topic T args w :
  let w' := (Shutdown w).1 in
  Publish run T args w' = Result w' [] (Return None)
  ∧ TryPublish run T args w' = Result w' [] (Return None)
  ∧ (is_Some (topics w !! T) →
     ∀ h, Subscribe T h w' = (w', None)
          ∧ SubscribeOnce T h w' = (w', None)
          ∧ SubscribeOnceEach T h w' = (w', None)).
Proof.
  intros w'.
  assert (topics w' !! T = shut <$> topics w !! T) as HT.
  { unfold w'. change (Shutdown w) with (UnsubscribeAll w).
    rewrite UnsubscribeAll_unfold. cbn [fst topics]. apply lookup_fmap. }
  destruct (topics w !! T) as [t|] eqn:Hw; simpl in HT.
  - unfold Publish, TryPublish, Subscribe, SubscribeOnce, SubscribeOnceEach.
    rewrite !(publish_closed run T (shut t)) by (done || apply shut_closed).
    split_and!; try done. intros _ h.
    rewrite !(subscribe_closed T (shut t)) by (done || apply shut_closed).
    done.
  - unfold Publish, TryPublish. rewrite !publish_absent by done.
    split_and!; done.
Qed.

(** X4. Shutting twice is shutting once: a second [Unsubscribe] or
    [CloseTopic] on the same name, and a second [UnsubscribeAll] or
    [Shutdown], return nil and change nothing. *)
Theorem unsubscribe_twice_changes_nothing T w :
  Unsubscribe T (Unsubscribe T w).1 = ((Unsubscribe T w).1, None)
  ∧ CloseTopic T (Unsubscribe T w).1 = ((Unsubscribe T w).1, None)
  ∧ Unsubscribe T (CloseTopic T w).1 = ((CloseTopic T w).1, None)
  ∧ UnsubscribeAll (UnsubscribeAll w).1 = ((UnsubscribeAll w).1, None)
  ∧ Shutdown (UnsubscribeAll w).1 = ((UnsubscribeAll w).1, None)
  ∧ UnsubscribeAll (Shutdown w).1 = ((Shutdown w).1, None).
Proof.
  assert (Unsubscribe T (Unsubscribe T w).1 = ((Unsubscribe T w).1, None)) as H1.
  { rewrite (Unsubscribe_unfold T w).
    destruct (topics w !! T) as [t|] eqn:HT; cbn [fst].
    - rewrite Unsubscribe_unfold, lookup_store_eq.
      f_equal. apply store_same. rewrite lookup_store_eq. f_equal.
      symmetry. apply shut_shut.
    - rewrite Unsubscribe_unfold. by rewrite HT. }
  assert (UnsubscribeAll (UnsubscribeAll w).1 = ((UnsubscribeAll w).1, None))
    as H2.
  { rewrite (UnsubscribeAll_unfold w). cbn [fst].
    rewrite UnsubscribeAll_unfold. cbn [topics mem]. f_equal.
    apply world_eq; simpl; [|done].
    apply map_eq. intros k. rewrite !lookup_fmap.
    destruct (topics w !! k) as [t|]; simpl; [|done]. by rewrite shut_shut. }
  split_and!; done.
Qed.

End Sweeps.

(** ** One topic at a time *)

Section Frames.

Context {handler slice any W : Type}.
Context (run : handler → slice → world handler W → world handler W * option any).

Implicit Types (t : topic handler) (w : world handler W) (h : handler)
  (args : slice) (T k : string).

Lemma mem_store k t w : mem (store k t w) = mem w.
Proof. reflexivity. Qed.

Lemma publish_range_other k T' args snapshot w :
  k ≠ T' → Forall (leaves run T') snapshot →
  topics (publish_range run k args snapshot w).1.1 !! T' = topics w !! T'.
Proof.
  intros Hne Hl. revert w.
  induction Hl as [|h rest Hh Hrest IH]; intros w; simpl; [done|].
  unfold publish_iteration. specialize (Hh args w).
  destruct (run h args w) as [w1 [v|]]; simpl in *; [done|].
  destruct (topics w1 !! k) as [t|].
  - specialize (IH (if once t then store k (clear_handlers t) w1 else w1)).
    destruct (publish_range run k args rest _) as [[w'' calls] p]; simpl in *.
    rewrite IH. destruct (once t); [|done]. by rewrite lookup_store_ne.
  - specialize (IH w1).
    by destruct (publish_range run k args rest _) as [[w'' calls] p]; simpl in *;
      rewrite IH.
Qed.

(** X5. The first subscribe call on a name creates the topic, open, under
    that name, with the handler as its only one and the flags of the call;
    a subscribe call adds the name it is given to the names of the registry
    and no other. *)
Theorem subscribe_creates_topic T h o oe w :
  dom (topics (subscribe T h o oe w).1) = {[T]} ∪ dom (topics w)
  ∧ (topics w !! T = None →
     topics (subscribe T h o oe w).1 !! T =
       Some {| name := T; handlers := [h]; once := o; onceEach := oe;
               closed := false |}).
Proof.
  rewrite subscribe_unfold. cbn [fst]. split.
  - unfold store; simpl. apply dom_insert_L.
  - intros HT. rewrite lookup_store_eq. unfold found_or_new. by rewrite HT.
Qed.

(** X6. A method called with the name [T] touches no other topic and not
    the memory of the program: [subscribe], [Unsubscribe] and [CloseTopic]
    leave every other entry and the memory as they are, and so does a
    publish call for an entry that the handlers of [T] leave alone. *)
Theorem methods_touch_one_topic T T' h o oe args try w :
  T ≠ T' →
  topics (subscribe T h o oe w).1 !! T' = topics w !! T'
  ∧ topics (Unsubscribe T w).1 !! T' = topics w !! T'
  ∧ topics (CloseTopic T w).1 !! T' = topics w !! T'
  ∧ mem (subscribe T h o oe w).1 = mem w
  ∧ mem (Unsubscribe T w).1 = mem w
  ∧ mem (CloseTopic T w).1 = mem w
  ∧ ((∀ t, topics w !! T = Some t → Forall (leaves run T') (handlers t)) →
     topics (after (publish run T args try w)) !! T' = topics w !! T').
Proof.
  intros Hne.
  assert (topics (Unsubscribe T w).1 !! T' = topics w !! T'
          ∧ mem (Unsubscribe T w).1 = mem w) as [Hu Hm].
  { rewrite Unsubscribe_unfold. destruct (topics w !! T) as [t|]; cbn [fst].
    - by rewrite lookup_store_ne.
    - done. }
  split_and!; try done.
  - by apply subscribe_lookup_ne.
  - by rewrite subscribe_unfold.
  - intros Hl. unfold publish, topic_publish.
    destruct (topics w !! T) as [t|] eqn:HT; simpl; [|done].
    destruct (closed t); simpl; [done|].
    pose proof (publish_range_other T T' args (handlers t) w Hne (Hl t eq_refl))
      as Hk.
    by destruct (publish_range run T args (handlers t) w) as [[w' calls] p].
Qed.

End Frames.

(** ** Invariants of the entries *)

Section Entrywise.

Context {handler slice any W : Type}.
Context (run : handler → slice → world handler W → world handler W * option any).

Implicit Types (t : topic handler) (w : world handler W) (h : handler)
  (args : slice) (T k : string).

(** A property of the entries that [newTopic] establishes and that the
    three subscribe methods, [topic.unsubscribe] and [t.handlers = nil]
    keep, is kept by every request, when the handlers keep it. *)
Variable I : string → topic handler → Prop.
Hypothesis I_new : ∀ k, I k (newTopic k).
Hypothesis I_subscribe : ∀ k h o oe t,
  (oe = true → o = true) → I k t → I k (topic_subscribe h o oe t).1.
Hypothesis I_shut : ∀ k t, I k t → I k (shut t).
Hypothesis I_clear : ∀ k t, I k t → I k (clear_handlers t).
Hypothesis I_run : handlers_keep run (entrywise I).

Lemma entrywise_store k t w :
  I k t → entrywise I w → entrywise I (store k t w).
Proof.
  intros Ht Hw k' t'. rewrite lookup_store.
  destruct (decide (k = k')) as [->|]; [by intros [= <-]|apply Hw].
Qed.

Lemma entrywise_subscribe T h o oe w :
  (oe = true → o = true) → entrywise I w → entrywise I (subscribe T h o oe w).1.
Proof.
  intros Hf Hw. rewrite subscribe_unfold. cbn [fst].
  apply entrywise_store; [|done]. apply I_subscribe; [done|].
  unfold found_or_new. destruct (topics w !! T) as [t|] eqn:HT; simpl.
  - by apply (Hw T).
  - apply I_new.
Qed.

Lemma entrywise_Unsubscribe T w :
  entrywise I w → entrywise I (Unsubscribe T w).1.
Proof.
  intros Hw. rewrite Unsubscribe_unfold.
  destruct (topics w !! T) as [t|] eqn:HT; cbn [fst]; [|done].
  apply entrywise_store; [|done]. by apply I_shut, (Hw T).
Qed.

Lemma entrywise_UnsubscribeAll w :
  entrywise I w → entrywise I (UnsubscribeAll w).1.
Proof.
  intros Hw. rewrite UnsubscribeAll_unfold. cbn [fst].
  intros k t. cbn [topics]. rewrite lookup_fmap.
  destruct (topics w !! k) as [t0|] eqn:Hk; simpl; [|done].
  intros [= <-]. by apply I_shut, (Hw k).
Qed.

Lemma entrywise_publish_range k args snapshot w :
  entrywise I w → entrywise I (publish_range run k args snapshot w).1.1.
Proof.
  revert w. induction snapshot as [|h rest IH]; intros w Hw; simpl; [done|].
  unfold publish_iteration. pose proof (I_run h args w Hw) as H1.
  destruct (run h args w) as [w1 [v|]]; simpl in *; [done|].
  destruct (topics w1 !! k) as [t|] eqn:Hk.
  - assert (entrywise I (if once t then store k (clear_handlers t) w1 else w1))
      as H2.
    { destruct (once t); [|done].
      apply entrywise_store; [|done]. by apply I_clear, (H1 k). }
    specialize (IH _ H2).
    by destruct (publish_range run k args rest _) as [[w'' calls] p].
  - specialize (IH _ H1).
    by destruct (publish_range run k args rest _) as [[w'' calls] p].
Qed.

Lemma entrywise_publish T args try w :
  entrywise I w → entrywise I (after (publish run T args try w)).
Proof.
  intros Hw. unfold publish, topic_publish.
  destruct (topics w !! T) as [t|]; simpl; [|done].
  destruct (closed t); simpl; [done|].
  pose proof (entrywise_publish_range T args (handlers t) w Hw) as H.
  by destruct (publish_range run T args (handlers t) w) as [[w' calls] p].
Qed.

Lemma entrywise_perform r w :
  entrywise I w → entrywise I (after (perform run r w)).
Proof.
  intros Hw. destruct r; simpl.
  - by apply entrywise_subscribe.
  - by apply entrywise_subscribe.
  - by apply entrywise_subscribe.
  - by apply entrywise_publish.
  - by apply entrywise_publish.
  - by apply entrywise_Unsubscribe.
  - by apply entrywise_UnsubscribeAll.
  - by apply entrywise_Unsubscribe.
  - by apply entrywise_UnsubscribeAll.
Qed.

Lemma entrywise_reachable w : reachable run w → entrywise I w.
Proof.
  intros [m Hw]. induction Hw as [|r w Hw IH|m' w Hw IH].
  - intros k t. unfold New; simpl. by rewrite lookup_empty.
  - by apply entrywise_perform.
  - exact IH.
Qed.

Lemma entrywise_perform_all rs w :
  entrywise I w → entrywise I (perform_all run rs w).
Proof.
  revert w. induction rs as [|r rs IH]; intros w Hw; simpl; [done|].
  by apply IH, entrywise_perform.
Qed.

End Entrywise.

(** ** What holds in every state, and what publish calls leave *)

Section Lifetimes.

Context {handler slice any W : Type}.
Context (run : handler → slice → world handler W → world handler W * option any).

Implicit Types (t : topic handler) (w : world handler W) (h : handler)
  (args : slice) (T k : string).

(** X7. Every topic is kept under its own name ([t.name] is the key of
    [t] in [p.topics]): every request keeps this, and it holds in every
    state a program can reach, when the handlers keep it. *)
Theorem topics_named_by_key :
  handlers_keep run named_by_key →
  (∀ r w, named_by_key w → named_by_key (after (perform run r w)))
  ∧ (∀ w, reachable run w → named_by_key w).
Proof.
  intros Hrun.
  assert (∀ k h o oe t, (oe = true → o = true) → name t = k →
            name (topic_subscribe h o oe t).1 = k) as Hsub.
  { intros k h o oe t _. unfold topic_subscribe. by destruct (closed t). }
  assert (∀ k t, name t = k → name (shut t) = k) as Hshut.
  { intros k t. unfold shut, topic_unsubscribe. by destruct (closed t). }
  split.
  - intros r w. by apply (entrywise_perform run (λ k t, name t = k)).
  - intros w. by apply (entrywise_reachable run (λ k t, name t = k)).
Qed.

(** X8. No topic has [onceEach] set without [once]: the three subscribe
    methods pass [(false, false)], [(true, false)] and [(true, true)], and
    nothing else writes the flags.  Every request keeps this, and it holds
    in every state a program can reach, when the handlers keep it. *)
Theorem onceEach_only_with_once :
  handlers_keep run flags_coherent →
  (∀ r w, flags_coherent w → flags_coherent (after (perform run r w)))
  ∧ (∀ w, reachable run w → flags_coherent w).
Proof.
  intros Hrun.
  assert (∀ k h o oe t, (oe = true → o = true) →
            (onceEach t = true → once t = true) →
            onceEach (topic_subscribe h o oe t).1 = true →
            once (topic_subscribe h o oe t).1 = true) as Hsub.
  { intros k h o oe t Hf. unfold topic_subscribe. by destruct (closed t). }
  assert (∀ (k : string) t, (onceEach t = true → once t = true) →
            onceEach (shut t) = true → once (shut t) = true) as Hshut.
  { intros k t. unfold shut, topic_unsubscribe. by destruct (closed t). }
  split.
  - intros r w.
    by apply (entrywise_perform run (λ _ t, onceEach t = true → once t = true)).
  - intros w.
    by apply (entrywise_reachable run (λ _ t, onceEach t = true → once t = true)).
Qed.

Lemma keeps_entries_refl w : keeps_entries w w.
Proof. by intros k. Qed.

Lemma keeps_entries_trans w1 w2 w3 :
  keeps_entries w1 w2 → keeps_entries w2 w3 → keeps_entries w1 w3.
Proof. intros H1 H2 k Hk. by apply H2, H1. Qed.

Lemma keeps_entries_store k t w : keeps_entries w (store k t w).
Proof.
  intros k' Hk'. rewrite lookup_store. by destruct (decide (k = k')).
Qed.

Lemma keeps_entries_publish_range k args snapshot w :
  handlers_keep_entries run →
  keeps_entries w (publish_range run k args snapshot w).1.1.
Proof.
  intros Hrun. revert w.
  induction snapshot as [|h rest IH]; intros w; simpl;
    [apply keeps_entries_refl|].
  unfold publish_iteration. pose proof (Hrun h args w) as H1.
  destruct (run h args w) as [w1 [v|]]; simpl in *; [done|].
  destruct (topics w1 !! k) as [t|].
  - specialize (IH (if once t then store k (clear_handlers t) w1 else w1)).
    destruct (publish_range run k args rest _) as [[w'' calls] p]; simpl in *.
    eapply keeps_entries_trans; [exact H1|].
    eapply keeps_entries_trans; [|exact IH].
    destruct (once t); [apply keeps_entries_store|apply keeps_entries_refl].
  - specialize (IH w1).
    destruct (publish_range run k args rest _) as [[w'' calls] p]; simpl in *.
    by eapply keeps_entries_trans.
Qed.

Lemma keeps_entries_perform r w :
  handlers_keep_entries run → keeps_entries w (after (perform run r w)).
Proof.
  intros Hrun.
  assert (∀ T h o oe, keeps_entries w (subscribe T h o oe w).1) as Hsub.
  { intros. rewrite subscribe_unfold. apply keeps_entries_store. }
  assert (∀ T, keeps_entries w (Unsubscribe T w).1) as Hun.
  { intros T. rewrite Unsubscribe_unfold.
    destruct (topics w !! T); [apply keeps_entries_store|apply keeps_entries_refl]. }
  assert (keeps_entries w (UnsubscribeAll w).1) as Hall.
  { rewrite UnsubscribeAll_unfold. intros k. cbn [fst topics].
    rewrite lookup_fmap. intros [t ->]. by eexists. }
  assert (∀ T args try, keeps_entries w (after (publish run T args try w)))
    as Hpub.
  { intros T args try. unfold publish, topic_publish.
    destruct (topics w !! T) as [t|]; simpl; [|apply keeps_entries_refl].
    destruct (closed t); simpl; [apply keeps_entries_refl|].
    pose proof (keeps_entries_publish_range T args (handlers t) w Hrun) as H.
    by destruct (publish_range run T args (handlers t) w) as [[w' calls] p]. }
  destruct r; simpl; try apply Hsub; try apply Hpub; try apply Hun;
    apply Hall.
Qed.

(** X9. No method ever removes an entry of the registry (the comments of
    [CloseTopic] and [Shutdown] say "deletes the topic"; the code closes it
    and keeps it): a name that has a topic has one in every later state,
    when the handlers remove none. *)
Theorem entries_never_removed w0 w :
  handlers_keep_entries run →
  reachable_from run w0 w → keeps_entries w0 w.
Proof.
  intros Hrun Hw. induction Hw as [|r w Hw IH|m w Hw IH].
  - apply keeps_entries_refl.
  - eapply keeps_entries_trans; [exact IH|]. by apply keeps_entries_perform.
  - exact IH.
Qed.


(** X11. A panic does not undo what the loop has done.  On an open topic
    with [once] set, when a handler panics after others have returned, the
    publish call ends with the panic, the handlers after it are not
    called, and the collection is empty all the same: they will never be
    called.  When the first handler panics, the loop has assigned nothing
    and the topic is as it was. *)
Theorem panic_after_clearing T t pre h post v args try w :
  topics w !! T = Some t → closed t = false → once t = true →
  handlers t = pre ++ h :: post →
  Forall (keeps_off run T) pre → panics run h args v → leaves run T h →
  let r := publish run T args try w in
  invoked r = map (λ h, (h, args)) (pre ++ [h])
  ∧ outcome r = Panic v
  ∧ topics (after r) !! T =
      Some (match pre with [] => t | _ :: _ => clear_handlers t end).
Proof.
  intros HT Hc Ho Hh Hpre Hp Hl r. unfold r.
  rewrite (publish_open run T t) by done. rewrite Hh.
  rewrite publish_range_app.
  pose proof (publish_range_topic run T args pre w t HT Hpre) as Hk.
  destruct (publish_range_invoked run T args pre w
              (keeps_off_returns run T pre Hpre)) as [Hi Hn].
  destruct (publish_range run T args pre w) as [[w1 calls1] p1].
  simpl in Hk, Hi, Hn. subst p1 calls1.
  cbn [publish_range]. unfold publish_iteration.
  specialize (Hp w1). specialize (Hl args w1).
  destruct (run h args w1) as [w2 p2]. simpl in Hp, Hl. subst p2. simpl.
  rewrite map_app. split_and!; [done|done|].
  rewrite Hl, Hk. destruct pre; [done|]. by rewrite Ho.
Qed.

End Lifetimes.

(** ** Delivery and calls from within handlers *)

Section Within.

Context {handler slice any W : Type}.
Context (run : handler → slice → world handler W → world handler W * option any).

Implicit Types (t : topic handler) (w : world handler W) (h : handler)
  (args : slice) (T k : string).



(** X13. [UnsubscribeAll] does what [Unsubscribe] does, called on each name
    of the registry in turn (in any order, a name more than once or a name
    without a topic making no difference). *)
Theorem UnsubscribeAll_is_Unsubscribe_each ks w :
  (∀ k, is_Some (topics w !! k) → k ∈ ks) →
  (UnsubscribeAll w).1 = foldl (λ w k, (Unsubscribe k w).1) w ks.
Proof.
  intros Hks.
  rewrite UnsubscribeAll_unfold, <- (sweep_all ks w Hks).
  rewrite sweep_unsubscribe_unfold. cbn [fst].
  clear Hks. revert w. induction ks as [|k ks IH]; intros w; simpl; [done|].
  rewrite Unsubscribe_unfold.
  destruct (topics w !! k) as [t|]; cbn [fst]; apply IH.
Qed.


End Within.

(** ** The further theorems at work on a program *)

Section Scripts.

Context {handler slice any W : Type}.
Context (run : handler → slice → world handler W → world handler W * option any).

Lemma named_by_key_perform_all rs (w : world handler W) :
  handlers_keep run named_by_key →
  named_by_key w → named_by_key (perform_all run rs w).
Proof.
  intros Hrun. apply (entrywise_perform_all run (λ k t, name t = k)); try done.
  - intros k h o oe t _. unfold topic_subscribe. by destruct (closed t).
  - intros k t. unfold shut, topic_unsubscribe. by destruct (closed t).
Qed.

Lemma flags_coherent_perform_all rs (w : world handler W) :
  handlers_keep run flags_coherent →
  flags_coherent w → flags_coherent (perform_all run rs w).
Proof.
  intros Hrun.
  apply (entrywise_perform_all run (λ _ t, onceEach t = true → once t = true));
    try done.
  - intros k h o oe t Hf. unfold topic_subscribe. by destruct (closed t).
  - intros k t. unfold shut, topic_unsubscribe. by destruct (closed t).
Qed.

Lemma keeps_entries_perform_all rs (w : world handler W) :
  handlers_keep_entries run → keeps_entries w (perform_all run rs w).
Proof.
  intros Hrun. revert w. induction rs as [|r rs IH]; intros w; simpl.
  - apply keeps_entries_refl.
  - eapply keeps_entries_trans; [by apply (keeps_entries_perform run)|apply IH].
Qed.

End Scripts.

Lemma with_callers_names k :
  is_Some (topics Demo.with_callers !! k) → k = "t" ∨ k = "u".
Proof.
  unfold Demo.with_callers, Demo.three, Demo.fresh, Subscribe.
  rewrite !subscribe_unfold. cbn [fst]. rewrite !lookup_store.
  repeat case_decide; auto.
  unfold New; simpl. rewrite lookup_empty. by intros [? ?].
Qed.

Lemma with_callers_ok : registry_ok Demo.with_callers.
Proof.
  exact (registry_ok_reachable _ _ calling_back_respects with_callers_reachable).
Qed.

Lemma calling_back_keeps_names : handlers_keep Demo.calling_back named_by_key.
Proof.
  intros h args w Hw. apply (named_by_key_perform_all Demo.idle); [|done].
  by intros ? ? ?.
Qed.

Lemma calling_back_keeps_flags : handlers_keep Demo.calling_back flags_coherent.
Proof.
  intros h args w Hw. apply (flags_coherent_perform_all Demo.idle); [|done].
  by intros ? ? ?.
Qed.

Lemma calling_back_keeps_entries : handlers_keep_entries Demo.calling_back.
Proof.
  intros h args w. apply (keeps_entries_perform_all Demo.idle).
  intros ? ? ?. apply keeps_entries_refl.
Qed.


Lemma UnsubscribeAll_shuts_every_topic_witness :
  registry_ok Demo.with_callers
  ∧ handlers <$> topics (UnsubscribeAll Demo.with_callers).1 !! "u" = Some [].
Proof.
  split; [exact with_callers_ok|].
  destruct (UnsubscribeAll_shuts_every_topic Demo.with_callers)
    as (_ & _ & _ & _ & Hh).
  destruct (topics (UnsubscribeAll Demo.with_callers).1 !! "u") as [t|] eqn:Hu;
    [|by vm_compute in Hu].
  simpl. f_equal. exact (Hh with_callers_ok "u" t Hu).
Defined.

Lemma sweep_order_irrelevant_witness :
  sweep topic_unsubscribe ["u"; "t"; "zzz"; "t"] Demo.with_callers
    = UnsubscribeAll Demo.with_callers
  ∧ sweep topic_close ["u"; "t"; "zzz"; "t"] Demo.with_callers
    = Shutdown Demo.with_callers.
Proof.
  apply (sweep_order_irrelevant ["u"; "t"; "zzz"; "t"] Demo.with_callers).
  intros k [->| ->]%with_callers_names; set_solver.
Defined.

Lemma Shutdown_silences_every_topic_witness :
  let w' := (Shutdown Demo.with_callers).1 in
  Subscribe "t" 4 w' = (w', None)
  ∧ SubscribeOnce "t" 4 w' = (w', None)
  ∧ SubscribeOnceEach "t" 4 w' = (w', None).
Proof.
  destruct (Shutdown_silences_every_topic Demo.idle "t" ["x"] Demo.with_callers)
    as (_ & _ & Hs).
  apply Hs. exists Demo.t_three. reflexivity.
Defined.

Lemma subscribe_creates_topic_witness :
  topics (subscribe "v" 1 true false Demo.three).1 !! "v" =
    Some {| name := "v"; handlers := [1]; once := true; onceEach := false;
            closed := false |}.
Proof.
  destruct (subscribe_creates_topic "v" 1 true false Demo.three) as [_ Hc].
  apply Hc. reflexivity.
Defined.

Lemma methods_touch_one_topic_witness :
  topics (subscribe "t" 4 true true Demo.with_callers).1 !! "u"
    = topics Demo.with_callers !! "u"
  ∧ topics (Unsubscribe "t" Demo.with_callers).1 !! "u"
    = topics Demo.with_callers !! "u"
  ∧ topics (after (publish Demo.idle "t" ["x"] false Demo.with_callers)) !! "u"
    = topics Demo.with_callers !! "u".
Proof.
  destruct (methods_touch_one_topic Demo.idle "t" "u" 4 true true ["x"] false
              Demo.with_callers) as (H1 & H2 & _ & _ & _ & _ & H7);
    [discriminate|].
  split_and!; [exact H1|exact H2|apply H7].
  intros t _. apply Forall_forall. by intros h _ args w.
Defined.

Lemma topics_named_by_key_witness :
  named_by_key (after (perform Demo.calling_back (DoPublish "u" ["x"])
                         Demo.with_callers)).
Proof.
  destruct (topics_named_by_key Demo.calling_back calling_back_keeps_names)
    as [Hstep Hreach].
  apply Hstep, Hreach, with_callers_reachable.
Defined.

Lemma onceEach_only_with_once_witness :
  flags_coherent (after (perform Demo.calling_back (DoPublish "u" ["x"])
                           Demo.with_callers)).
Proof.
  destruct (onceEach_only_with_once Demo.calling_back calling_back_keeps_flags)
    as [Hstep Hreach].
  apply Hstep, Hreach, with_callers_reachable.
Defined.

Lemma entries_never_removed_witness :
  keeps_entries Demo.with_callers
    (perform_all Demo.calling_back
       [DoPublish "u" ["x"]; DoCloseTopic "u"; DoShutdown] Demo.with_callers).
Proof.
  apply (entries_never_removed Demo.calling_back).
  - exact calling_back_keeps_entries.
  - apply reachable_from_perform_all.
Defined.


Lemma panic_after_clearing_witness :
  let r := publish Demo.second_fails "t" ["x"] true
             (SubscribeOnce "t" 4 Demo.three).1 in
  invoked r = [(1, ["x"]); (2, ["x"])]
  ∧ outcome r = Panic "boom"
  ∧ topics (after r) !! "t" =
      Some {| name := "t"; handlers := []; once := true; onceEach := false;
              closed := false |}.
Proof.
  apply (panic_after_clearing Demo.second_fails "t"
           {| name := "t"; handlers := [1; 2; 3; 4]; once := true;
              onceEach := false; closed := false |}
           [1] 2 [3; 4] "boom" ["x"] true (SubscribeOnce "t" 4 Demo.three).1).
  - reflexivity.
  - reflexivity.
  - reflexivity.
  - reflexivity.
  - repeat constructor.
  - intros w. reflexivity.
  - intros args w. reflexivity.
Defined.


Lemma UnsubscribeAll_is_Unsubscribe_each_witness :
  (UnsubscribeAll Demo.with_callers).1
  = (Unsubscribe "t" (Unsubscribe "u" Demo.with_callers).1).1.
Proof.
  apply (UnsubscribeAll_is_Unsubscribe_each ["u"; "t"] Demo.with_callers).
  intros k [->| ->]%with_callers_names; set_solver.
Defined.


(** ** Closing a topic from one of its handlers *)

Section ClosingWithin.

Context {handler slice any W : Type}.
Context (run : handler → slice → world handler W → world handler W * option any).

Implicit Types (t : topic handler) (w : world handler W) (h : handler)
  (args : slice) (T k : string).

(** X15. [topic.publish] tests [t.closed] once, on entry.  When the first
    handler of an open topic closes the topic, the publish call under way
    still calls every other handler the topic had, and returns nil; the
    topic is closed and empty afterwards. *)
Theorem closing_within_does_not_stop_delivery T t h0 rest args try w :
  topics w !! T = Some t → closed t = false → handlers t = h0 :: rest →
  (∀ args w, run h0 args w = ((CloseTopic T w).1, None)) →
  Forall (keeps_off run T) rest →
  let r := publish run T args try w in
  invoked r = map (λ h, (h, args)) (h0 :: rest)
  ∧ outcome r = Return None
  ∧ retired T (after r).
Proof.
  intros HT Hc Hh H0 Hrest r. unfold r.
  rewrite (publish_open run T t) by done. rewrite Hh.
  cbn [publish_range]. unfold publish_iteration. rewrite H0.
  rewrite CloseTopic_Unsubscribe, Unsubscribe_unfold, HT. cbn [fst].
  rewrite lookup_store_eq.
  set (w1 := store T (topic_unsubscribe t).1 w).
  set (t2 := if once (topic_unsubscribe t).1
             then clear_handlers (topic_unsubscribe t).1
             else (topic_unsubscribe t).1).
  set (w2 := if once (topic_unsubscribe t).1
             then store T (clear_handlers (topic_unsubscribe t).1) w1 else w1).
  assert (topics w2 !! T = Some t2) as H2.
  { unfold w2, t2. destruct (once (topic_unsubscribe t).1);
      apply lookup_store_eq. }
  assert (closed t2 = true ∧ handlers t2 = []) as [Hc2 Hh2].
  { unfold t2, topic_unsubscribe. rewrite Hc. simpl. by destruct (once t). }
  pose proof (publish_range_topic run T args rest w2 t2 H2 Hrest) as Hk.
  destruct (publish_range_invoked run T args rest w2
              (keeps_off_returns run T rest Hrest)) as [Hi Hp].
  destruct (publish_range run T args rest w2) as [[w' calls] p].
  simpl in Hk, Hi, Hp. subst calls p. simpl.
  split_and!; [done|done|].
  eexists. split; [exact Hk|].
  destruct rest; [done|]. by destruct (once t2).
Qed.

End ClosingWithin.

Lemma closing_within_does_not_stop_delivery_witness :
  let w := (Subscribe "t" 1 (Subscribe "t" 9 Demo.fresh).1).1 in
  let r := publish Demo.calling_back "t" ["x"] false w in
  invoked r = [(9, ["x"]); (1, ["x"])]
  ∧ outcome r = Return None
  ∧ retired "t" (after r).
Proof.
  apply (closing_within_does_not_stop_delivery Demo.calling_back "t"
           {| name := "t"; handlers := [9; 1]; once := false;
              onceEach := false; closed := false |}
           9 [1] ["x"] false (Subscribe "t" 1 (Subscribe "t" 9 Demo.fresh).1).1).
  - reflexivity.
  - reflexivity.
  - reflexivity.
  - intros args w. reflexivity.
  - repeat constructor.
Defined.
